(** * A model of the multiplexed protocol connection of [src/connection.ts]

    One [Connection] owns a transport and a registry of [CDPSession]
    objects; every session keeps the commands that still await a reply.
    The classes are embedded as records living in a [World]: the
    connection, a heap of session objects addressed by reference, the
    number of promises created so far and the trace of the effects that
    leave the two classes (calls of the transport, settlements of
    promises, emitted events).  Methods are computations in a
    state-and-exception monad over that world; an exception keeps the
    state reached when it was thrown.

    What lies outside the file is not modelled beyond its interface:
    the transport accepts every message and [JSON.stringify] is a
    parameter.  Sessions inherit the event emitter of the platform: the
    world keeps which session listens to which event, an emitted event
    is recorded and what its listeners do with it is left out, but an
    [error] event emitted on a session without listener for it is
    thrown by the emitter as an unhandled error, whose message is a
    parameter.  Command identifiers are JavaScript numbers used as
    counters; they are modelled as integers ([Z]), on which [++] is
    exact, as it is on numbers below 2^53. *)

From stdpp Require Import base numbers list strings sorting pretty.

Open Scope Z_scope.

(** ** JavaScript [Map]: insertion-ordered, one binding per key *)

Module JsMap.
Section defs.
Context {K V : Type} `{EqDecision K}.

Definition t := list (K * V).

Definition empty : t := [].

Fixpoint get (k : K) (m : t) : option V :=
    match m with
    | [] => None
    | (k', v) :: m' => if decide (k = k') then Some v else get k m'
    end.

Definition has (k : K) (m : t) : bool :=
    match get k m with Some _ => true | None => false end.

  (** [set] overwrites in place when the key is bound, appends otherwise. *)
Fixpoint set (k : K) (v : V) (m : t) : t :=
    match m with
    | [] => [(k, v)]
    | (k', v') :: m' =>
        if decide (k = k') then (k, v) :: m' else (k', v') :: set k v m'
    end.

Fixpoint delete (k : K) (m : t) : t :=
    match m with
    | [] => []
    | (k', v') :: m' =>
        if decide (k = k') then delete k m' else (k', v') :: delete k m'
    end.

Definition keys (m : t) : list K := map fst m.
Definition values (m : t) : list V := map snd m.
Definition clear (m : t) : t := [].
End defs.
Arguments t : clear implicits.
End JsMap.

(** ** Wire data *)

(** Values of the TypeScript types [object] and [any]. *)
#[local] Unset Elimination Schemes.
Inductive Json :=
| JNull
| JBool (b : bool)
| JNumber (n : Z)
| JString (s : string)
| JArray (items : list Json)
| JObject (fields : list (string * Json)).
#[local] Set Elimination Schemes.

Record ProtocolCommand := {
  cmd_id : Z;
  cmd_method : string;
  cmd_params : Json;
  cmd_sessionId : option string
}.

Record ProtocolError := {
  err_message : string;
  err_data : Json
}.

(** Every field of [ProtocolResponse] is optional: [None] is [undefined]. *)
Record ProtocolResponse := {
  msg_id : option Z;
  msg_method : option string;
  msg_params : option Json;
  msg_result : option Json;
  msg_error : option ProtocolError;
  msg_sessionId : option string
}.

(** ** Errors, promises, events *)

(** The places of the file where an [Error] is constructed.  The token
    captured by [sendOrDie] is identified by the command it was captured
    for. *)
Inductive CallSite :=
| at_Connection_onMessage
| at_sendOrDie_closed
| at_sendOrDie_from (id : Z)
| at_CDPSession_onMessage
| at_detach
| at_EventEmitter_emit
| at_runtime_TypeError.

Record Error := {
  stack : CallSite;
  message : string
}.

Definition new_Error (site : CallSite) (msg : string) : Error :=
  {| stack := site; message := msg |}.

(** [e.message = msg]: same error object, new message. *)
Definition with_message (e : Error) (msg : string) : Error :=
  {| stack := stack e; message := msg |}.

Inductive Value :=
| VUndefined
| VNull
| VObject (o : Json).

Definition value_of (o : option Json) : Value :=
  match o with Some j => VObject j | None => VUndefined end.

(** Promises and session objects are named by the order of creation. *)
Abbreviation PromiseId := nat (only parsing).
Abbreviation SessionRef := nat (only parsing).

Inductive EventName :=
| ev_method (name : option string)
| ev_Disconnected.

#[global] Instance EventName_eq_dec : EqDecision EventName.
Proof. solve_decision. Defined.

Inductive Effect :=
| TransportSend (message : ProtocolCommand) (messageString : string)
| TransportClose
| Resolve (p : PromiseId) (v : Value)
| Reject (p : PromiseId) (e : Error)
| Emit (session : SessionRef) (event : EventName) (args : list Value).

(** A promise handed to a caller: one created by [sendOrDie], or one
    derived from it with [.catch]. *)
Inductive Promise :=
| promise (p : PromiseId)
| promise_catch (source : Promise) (onRejected : Error -> Value).

Inductive PromiseState :=
| Pending
| Fulfilled (v : Value)
| Rejected (e : Error).

(** A promise keeps its first settlement; later calls of its [resolve]
    or [reject] do nothing. *)
Fixpoint settlement (p : PromiseId) (tr : list Effect) : PromiseState :=
  match tr with
  | [] => Pending
  | Resolve q v :: tr' => if decide (p = q) then Fulfilled v else settlement p tr'
  | Reject q e :: tr' => if decide (p = q) then Rejected e else settlement p tr'
  | _ :: tr' => settlement p tr'
  end.

Fixpoint promise_state (tr : list Effect) (pr : Promise) : PromiseState :=
  match pr with
  | promise p => settlement p tr
  | promise_catch source onRejected =>
      match promise_state tr source with
      | Pending => Pending
      | Fulfilled v => Fulfilled v
      | Rejected e => Fulfilled (onRejected e)
      end
  end.

(** How often the settling functions of promise [p] were called. *)
Fixpoint settle_calls (p : PromiseId) (tr : list Effect) : nat :=
  match tr with
  | [] => O
  | Resolve q _ :: tr' | Reject q _ :: tr' =>
      if decide (p = q) then S (settle_calls p tr') else settle_calls p tr'
  | _ :: tr' => settle_calls p tr'
  end.

Fixpoint sent_ids (tr : list Effect) : list Z :=
  match tr with
  | [] => []
  | TransportSend m _ :: tr' => cmd_id m :: sent_ids tr'
  | _ :: tr' => sent_ids tr'
  end.

(** ** Objects *)

Record ProtocolCallback := {
  cb_promise : PromiseId;   (* the promise [resolve] and [reject] settle *)
  cb_from : Error;
  cb_method : string
}.

Record Transport := {
  onmessage : bool;         (* is the connection's handler installed? *)
  onclose : bool
}.

Inductive ConnectionRef := this_connection.

Record CDPSession := {
  _connection : option ConnectionRef;
  _callbacks : JsMap.t Z ProtocolCallback;
  _sessionId : string
}.

Record Connection := {
  _lastId : Z;
  _transport : Transport;
  _sessions : JsMap.t string SessionRef;
  _closed : bool;
  _browserSession : SessionRef
}.

Record World := {
  listeners : list (SessionRef * EventName);
  connection : Connection;
  heap : list CDPSession;
  promises : nat;
  trace : list Effect
}.

(** ** The monad of methods *)

Inductive Completion (A : Type) :=
| Normal (a : A)
| Throw (e : Error).
Arguments Normal {A} a.
Arguments Throw {A} e.

Definition M (A : Type) : Type := World -> Completion A * World.

Definition ret {A} (a : A) : M A := fun w => (Normal a, w).

Definition bind {A B} (m : M A) (k : A -> M B) : M B :=
  fun w =>
    match m w with
    | (Normal a, w') => k a w'
    | (Throw e, w') => (Throw e, w')
    end.

Definition throw {A} (e : Error) : M A := fun w => (Throw e, w).

Notation "'let*' x ':=' m 'in' k" := (bind m (fun x => k))
  (at level 10, x pattern, m at level 200, k at level 200).

Fixpoint forEach {A} (f : A -> M unit) (l : list A) : M unit :=
  match l with
  | [] => ret tt
  | x :: l' => let* _ := f x in forEach f l'
  end.

Definition get_connection : M Connection := fun w => (Normal (connection w), w).

Definition put_connection (c : Connection) : M unit :=
  fun w => (Normal tt,
            {| listeners := listeners w; connection := c; heap := heap w;
               promises := promises w; trace := trace w |}).

Definition effect (e : Effect) : M unit :=
  fun w => (Normal tt,
            {| listeners := listeners w; connection := connection w; heap := heap w;
               promises := promises w; trace := trace w ++ [e] |}).

Definition deref (this : SessionRef) : M CDPSession :=
  fun w =>
    match heap w !! this with
    | Some s => (Normal s, w)
    | None => (Throw (new_Error at_runtime_TypeError EmptyString), w)
    end.

Definition assign (this : SessionRef) (s : CDPSession) : M unit :=
  fun w => (Normal tt,
            {| listeners := listeners w; connection := connection w; heap := <[this := s]> (heap w);
               promises := promises w; trace := trace w |}).

Definition new_CDPSession (s : CDPSession) : M SessionRef :=
  fun w => (Normal (length (heap w)),
            {| listeners := listeners w; connection := connection w; heap := heap w ++ [s];
               promises := promises w; trace := trace w |}).

Definition new_Promise : M PromiseId :=
  fun w => (Normal (promises w),
            {| listeners := listeners w; connection := connection w; heap := heap w;
               promises := S (promises w); trace := trace w |}).

(** [Promise.reject(e)]: a new promise, born rejected. *)
Definition Promise_reject (e : Error) : M PromiseId :=
  let* p := new_Promise in
  let* _ := effect (Reject p e) in
  ret p.

Definition resolve (callback : ProtocolCallback) (v : Value) : M unit :=
  effect (Resolve (cb_promise callback) v).

Definition reject (callback : ProtocolCallback) (e : Error) : M unit :=
  effect (Reject (cb_promise callback) e).

(** Field updates. *)
Definition set_lastId (id : Z) (c : Connection) : Connection :=
  {| _lastId := id; _transport := _transport c; _sessions := _sessions c;
     _closed := _closed c; _browserSession := _browserSession c |}.

Definition set_sessions (m : JsMap.t string SessionRef) (c : Connection) : Connection :=
  {| _lastId := _lastId c; _transport := _transport c; _sessions := m;
     _closed := _closed c; _browserSession := _browserSession c |}.

Definition set_closed (b : bool) (c : Connection) : Connection :=
  {| _lastId := _lastId c; _transport := _transport c; _sessions := _sessions c;
     _closed := b; _browserSession := _browserSession c |}.

Definition set_transport (t : Transport) (c : Connection) : Connection :=
  {| _lastId := _lastId c; _transport := t; _sessions := _sessions c;
     _closed := _closed c; _browserSession := _browserSession c |}.

Definition set_callbacks (m : JsMap.t Z ProtocolCallback) (s : CDPSession) : CDPSession :=
  {| _connection := _connection s; _callbacks := m; _sessionId := _sessionId s |}.

Definition set_connection (c : option ConnectionRef) (s : CDPSession) : CDPSession :=
  {| _connection := c; _callbacks := _callbacks s; _sessionId := _sessionId s |}.

(** JavaScript conversions used by the file. *)
Definition truthy_number (n : option Z) : bool :=
  match n with Some n => negb (n =? 0) | None => false end.

Definition truthy_string (s : string) : bool :=
  if decide (s = EmptyString) then false else true.

(** [s || ''] *)
Definition or_empty (s : option string) : string :=
  match s with Some s => s | None => EmptyString end.

(** [`${s}`] for an optional string. *)
Definition template (s : option string) : string :=
  match s with Some s => s | None => "undefined"%string end.

Definition command_to_json (m : ProtocolCommand) : Json :=
  JObject ([("id"%string, JNumber (cmd_id m));
            ("method"%string, JString (cmd_method m));
            ("params"%string, cmd_params m)]
           ++ match cmd_sessionId m with
              | Some s => [("sessionId"%string, JString s)]
              | None => []
              end).

Definition error_to_json (e : ProtocolError) : Json :=
  JObject [("message"%string, JString (err_message e));
           ("data"%string, err_data e)].

(** The listeners registered on the sessions: the state every session
    inherits from the emitter of the platform, kept beside the heap. *)
Definition with_listeners (l : list (SessionRef * EventName)) (w : World) : World :=
  {| listeners := l; connection := connection w; heap := heap w;
     promises := promises w; trace := trace w |}.

Definition has_listener (this : SessionRef) (event : EventName)
    (l : list (SessionRef * EventName)) : bool :=
  bool_decide ((this, event) ∈ l).

(** Removes one registration, if there is one. *)
Fixpoint remove_listener (this : SessionRef) (event : EventName)
    (l : list (SessionRef * EventName)) : list (SessionRef * EventName) :=
  match l with
  | [] => []
  | x :: l' =>
      if decide (x = (this, event)) then l' else x :: remove_listener this event l'
  end.

Definition is_error_event (event : EventName) : bool :=
  match event with
  | ev_method (Some name) => if decide (name = "error"%string) then true else false
  | _ => false
  end.

Definition unhandled_error (this : SessionRef) (event : EventName)
    (l : list (SessionRef * EventName)) : bool :=
  is_error_event event && negb (has_listener this event l).

(** A serializer to run examples with: compact JSON, strings written
    without escapes.  The theorems hold for every serializer. *)
Definition quote : string :=
  String (Ascii.Ascii false true false false false true false false) EmptyString.

Fixpoint example_stringify (j : Json) : string :=
  match j with
  | JNull => "null"
  | JBool b => if b then "true" else "false"
  | JNumber n => pretty n
  | JString s => quote +:+ s +:+ quote
  | JArray items =>
      "[" +:+ (fix elements (l : list Json) : string :=
                 match l with
                 | [] => EmptyString
                 | [x] => example_stringify x
                 | x :: l' => example_stringify x +:+ "," +:+ elements l'
                 end) items +:+ "]"
  | JObject fields =>
      "{" +:+ (fix members (l : list (string * Json)) : string :=
                 match l with
                 | [] => EmptyString
                 | [(k, v)] => quote +:+ k +:+ quote +:+ ":" +:+ example_stringify v
                 | (k, v) :: l' =>
                     quote +:+ k +:+ quote +:+ ":" +:+ example_stringify v
                     +:+ "," +:+ members l'
                 end) fields +:+ "}"
  end.

Definition example_inspect (v : Value) : string :=
  match v with
  | VUndefined => "undefined"
  | VNull => "null"
  | VObject o => example_stringify o
  end.

Definition example_unhandled_error (v : Value) : string :=
  "Unhandled error. (" +:+ example_inspect v +:+ ")".

(** ** The two classes *)

Section connection.

(** [JSON.stringify], the serializer of the platform. *)
Variable JSON_stringify : Json -> string.

(** The message of the error [ERR_UNHANDLED_ERROR] that the emitter of
    the platform throws for an [error] event without listener, built
    from the first argument of the event ([Unhandled error. (...)]
    around that argument as the platform prints it). *)
Variable ERR_UNHANDLED_ERROR : Value -> string.

(** [new Connection(transport)]: the root session is object 0. *)
Definition new_Connection : World :=
  {| listeners := []; connection :=
       {| _lastId := 0;
          _transport := {| onmessage := true; onclose := true |};
          _sessions := JsMap.set EmptyString O JsMap.empty;
          _closed := false;
          _browserSession := O |};
     heap := [ {| _connection := Some this_connection;
                  _callbacks := JsMap.empty;
                  _sessionId := EmptyString |} ];
     promises := O;
     trace := [] |}.

Definition browserSession : M SessionRef :=
  let* c := get_connection in ret (_browserSession c).

Definition session (sessionId : string) : M (option SessionRef) :=
  let* c := get_connection in ret (JsMap.get sessionId (_sessions c)).

Definition Connection_send (method : string) (params : option Json)
    (sessionId : string) : M Z :=
  let* c := get_connection in
  let id := _lastId c + 1 in
  let* _ := put_connection (set_lastId id c) in
  let message :=
    {| cmd_id := id; cmd_method := method;
       cmd_params := default (JObject []) params;
       cmd_sessionId := if truthy_string sessionId then Some sessionId else None |} in
  let messageString := JSON_stringify (command_to_json message) in
  let* _ := effect (TransportSend message messageString) in
  ret id.

(** [on] and [off], inherited from the emitter of the platform. *)
Definition on (this : SessionRef) (event : EventName) : M unit :=
  fun w => (Normal tt, with_listeners (listeners w ++ [(this, event)]) w).

Definition off (this : SessionRef) (event : EventName) : M unit :=
  fun w => (Normal tt, with_listeners (remove_listener this event (listeners w)) w).

(** [emit], inherited from the emitter of the platform: an [error]
    event that no listener is registered for is thrown as an unhandled
    error (the first argument is never an [Error] object here);
    otherwise the event goes to the listeners, which is recorded. *)
Definition emit (this : SessionRef) (event : EventName) (args : list Value) : M unit :=
  fun w =>
    if unhandled_error this event (listeners w)
    then (Throw (new_Error at_EventEmitter_emit
                   (ERR_UNHANDLED_ERROR (hd VUndefined args))), w)
    else effect (Emit this event args) w.

Definition sessionId (this : SessionRef) : M string :=
  let* s := deref this in ret (_sessionId s).

Definition isClosed (this : SessionRef) : M bool :=
  let* s := deref this in
  ret (match _connection s with Some _ => false | None => true end).

Definition sendOrDie (this : SessionRef) (method : string) (params : option Json)
    : M PromiseId :=
  let* s := deref this in
  match _connection s with
  | None =>
      Promise_reject
        (new_Error at_sendOrDie_closed
           ("Protocol error (" +:+ method +:+
            "): Session closed. Most likely the target has been closed."))
  | Some _ =>
      let* id := Connection_send method params (_sessionId s) in
      let* p := new_Promise in
      let* s := deref this in
      let* _ := assign this
        (set_callbacks
           (JsMap.set id {| cb_promise := p;
                            cb_from := new_Error (at_sendOrDie_from id) EmptyString;
                            cb_method := method |} (_callbacks s)) s) in
      ret p
  end.

Definition send (this : SessionRef) (method : string) (params : option Json)
    : M Promise :=
  let* p := sendOrDie this method params in
  ret (promise_catch (promise p) (fun e => VNull)).

Definition CDPSession_onMessage (this : SessionRef) (object : ProtocolResponse)
    : M unit :=
  let* s := deref this in
  let id := default 0 (msg_id object) in
  if truthy_number (msg_id object) && JsMap.has id (_callbacks s) then
    match JsMap.get id (_callbacks s) with
    | None => throw (new_Error at_runtime_TypeError EmptyString)
    | Some callback =>
        let* _ := assign this (set_callbacks (JsMap.delete id (_callbacks s)) s) in
        match msg_error object with
        | Some error =>
            let m1 := "Protocol error (" +:+ template (msg_method object) +:+ "): "
                      +:+ err_message error in
            let m2 := m1 +:+ " - " +:+ JSON_stringify (error_to_json error) in
            reject callback (with_message (cb_from callback) m2)
        | None => resolve callback (value_of (msg_result object))
        end
    end
  else
    let* _ := (if truthy_number (msg_id object)
               then throw (new_Error at_CDPSession_onMessage EmptyString)
               else ret tt) in
    emit this (ev_method (msg_method object)) [value_of (msg_params object)].

Definition CDPSession_onClose (this : SessionRef) : M unit :=
  let* s := deref this in
  let* _ := forEach
    (fun callback =>
       reject callback
         (with_message (cb_from callback)
            ("Protocol error (" +:+ cb_method callback +:+ "): Target closed.")))
    (JsMap.values (_callbacks s)) in
  let* s := deref this in
  let* _ := assign this (set_callbacks (JsMap.clear (_callbacks s)) s) in
  let* s := deref this in
  let* _ := assign this (set_connection None s) in
  emit this ev_Disconnected [].

Definition Connection_onMessage (object : ProtocolResponse) : M unit :=
  let* c := get_connection in
  match JsMap.get (or_empty (msg_sessionId object)) (_sessions c) with
  | Some s => CDPSession_onMessage s object
  | None =>
      throw (new_Error at_Connection_onMessage
               ("Unknown session id: " +:+ template (msg_sessionId object)))
  end.

Definition Connection_onTransportClose : M unit :=
  let* c := get_connection in
  if _closed c then ret tt
  else
    let* _ := put_connection (set_closed true c) in
    let* c := get_connection in
    let* _ := put_connection
      (set_transport {| onmessage := false; onclose := false |} c) in
    let* c := get_connection in
    let* _ := forEach CDPSession_onClose (JsMap.values (_sessions c)) in
    let* c := get_connection in
    put_connection (set_sessions (JsMap.clear (_sessions c)) c).

Definition Connection_dispose : M unit :=
  let* _ := Connection_onTransportClose in
  effect TransportClose.

Definition createSession (sessionId : string) : M SessionRef :=
  let* s := new_CDPSession {| _connection := Some this_connection;
                              _callbacks := JsMap.empty;
                              _sessionId := sessionId |} in
  let* c := get_connection in
  let* _ := put_connection (set_sessions (JsMap.set sessionId s (_sessions c)) c) in
  ret s.

Definition Connection_disposeSession (s : SessionRef) : M unit :=
  let* _ := CDPSession_onClose s in
  let* id := sessionId s in
  let* c := get_connection in
  put_connection (set_sessions (JsMap.delete id (_sessions c)) c).

Definition CDPSession_dispose (this : SessionRef) : M unit :=
  let* s := deref this in
  match _connection s with
  | Some _ => Connection_disposeSession this
  | None => ret tt
  end.

Definition detach (this : SessionRef) : M unit :=
  let* s := deref this in
  match _connection s with
  | None =>
      throw (new_Error at_detach
               "Session already detached. Most likely the target has been closed.")
  | Some _ =>
      let* _ := Connection_send "Target.detachFromTarget" (Some (JObject []))
                  (_sessionId s) in
      ret tt
  end.

(** ** Runs of a connection

    What the owner of the connection and its transport can do to it. *)

Inductive Op :=
| call_createSession (sessionId : string)
| call_sendOrDie (s : SessionRef) (method : string) (params : option Json)
| call_send (s : SessionRef) (method : string) (params : option Json)
| call_detach (s : SessionRef)
| call_session_dispose (s : SessionRef)
| call_dispose
| transport_message (object : ProtocolResponse)
| transport_close
| call_on (s : SessionRef) (event : EventName)
| call_off (s : SessionRef) (event : EventName).

(** The transport only reaches the handlers that are still installed. *)
Definition exec (op : Op) (w : World) : World :=
  match op with
  | call_createSession id => snd (createSession id w)
  | call_sendOrDie s method params => snd (sendOrDie s method params w)
  | call_send s method params => snd (send s method params w)
  | call_detach s => snd (detach s w)
  | call_session_dispose s => snd (CDPSession_dispose s w)
  | call_dispose => snd (Connection_dispose w)
  | transport_message object =>
      if onmessage (_transport (connection w))
      then snd (Connection_onMessage object w) else w
  | transport_close =>
      if onclose (_transport (connection w))
      then snd (Connection_onTransportClose w) else w
  | call_on s event => snd (on s event w)
  | call_off s event => snd (off s event w)
  end.

Fixpoint run (ops : list Op) (w : World) : World :=
  match ops with
  | [] => w
  | op :: ops' => run ops' (exec op w)
  end.


(** ** Counting pending entries *)

(** The entries of one session that would settle promise [p]. *)
Definition awaiting (p : PromiseId) (s : CDPSession) : nat :=
  length (filter (fun cb => cb_promise cb = p) (JsMap.values (_callbacks s))).

Definition pending (p : PromiseId) (w : World) : nat :=
  sum_list_with (awaiting p) (heap w).

(** Every promise created so far is either awaited by exactly one
    pending entry and was never settled, or has no entry and was settled
    once; identifiers in the maps were issued, and are bound once. *)
Record settled_once (w : World) : Prop := {
  once_count : forall p,
    (settle_calls p (trace w) + pending p w)%nat
    = if decide (p < promises w)%nat then 1%nat else 0%nat;
  once_keys : forall ref s, heap w !! ref = Some s ->
    NoDup (JsMap.keys (_callbacks s));
  once_issued : forall ref s k, heap w !! ref = Some s ->
    k ∈ JsMap.keys (_callbacks s) -> k <= _lastId (connection w)
}.

Definition is_closed (s : CDPSession) : Prop :=
  _callbacks s = [] /\ _connection s = None.

(** Every session object is registered under its own identifier, or is
    closed; the registry holds references to existing objects. *)
Record registered_or_closed (w : World) : Prop := {
  reg_sessions : forall ref s, heap w !! ref = Some s ->
    JsMap.get (_sessionId s) (_sessions (connection w)) = Some ref \/ is_closed s;
  reg_valid : forall ref, ref ∈ JsMap.values (_sessions (connection w)) ->
    (ref < length (heap w))%nat
}.

(** All identifiers handed to the transport so far were issued in
    increasing order, up to [_lastId]. *)
Definition ids_increasing (w : World) : Prop :=
  StronglySorted Z.lt (sent_ids (trace w))
  /\ Forall (fun id => id <= _lastId (connection w)) (sent_ids (trace w)).

(** ** Worlds the methods lead to *)

Definition add_trace (es : list Effect) (w : World) : World :=
  {| listeners := listeners w; connection := connection w; heap := heap w;
     promises := promises w; trace := trace w ++ es |}.

(** The settlement a matching reply produces. *)
Definition reply_settlement (callback : ProtocolCallback) (object : ProtocolResponse)
    : Effect :=
  match msg_error object with
  | Some error =>
      Reject (cb_promise callback)
        (with_message (cb_from callback)
           ("Protocol error (" +:+ template (msg_method object) +:+ "): "
            +:+ err_message error +:+ " - "
            +:+ JSON_stringify (error_to_json error)))
  | None => Resolve (cb_promise callback) (value_of (msg_result object))
  end.

(** The settlement closing produces for a pending command. *)
Definition close_rejection (callback : ProtocolCallback) : Effect :=
  Reject (cb_promise callback)
    (with_message (cb_from callback)
       ("Protocol error (" +:+ cb_method callback +:+ "): Target closed.")).

(** A session after [_onClose]. *)
Definition closed_session (s : CDPSession) : CDPSession :=
  {| _connection := None; _callbacks := []; _sessionId := _sessionId s |}.

(** The object [new CDPSession(this, id)] builds. *)
Definition new_session (id : string) : CDPSession :=
  {| _connection := Some this_connection; _callbacks := JsMap.empty;
     _sessionId := id |}.

Definition with_connection (c : Connection) (w : World) : World :=
  {| listeners := listeners w; connection := c; heap := heap w; promises := promises w; trace := trace w |}.


(** Nothing was sent and no identifier was issued between two worlds. *)
Definition quiet (w w' : World) : Prop :=
  sent_ids (trace w') = sent_ids (trace w)
  /\ _lastId (connection w') = _lastId (connection w).

(** ** Examples

    The messages and runs of the scenarios of the specification. *)

Definition reply_to (id : Z) (result : Json) : ProtocolResponse :=
  {| msg_id := Some id; msg_method := None; msg_params := None;
     msg_result := Some result; msg_error := None; msg_sessionId := None |}.

Definition event (id : option Z) (sid : option string) : ProtocolResponse :=
  {| msg_id := id; msg_method := Some "Debugger.paused";
     msg_params := Some (JObject [("reason", JString "other")]);
     msg_result := None; msg_error := None; msg_sessionId := sid |}.

Definition two_sessions_run : list Op :=
  [ call_createSession "A1";
    call_sendOrDie 1 "Debugger.enable" None;
    call_sendOrDie 0 "Target.getTargets" None;
    transport_message (reply_to 2 (JObject [("targets", JArray [])])) ].

Definition duplicate_run : list Op :=
  [ call_createSession "A1"; call_sendOrDie 1 "Debugger.enable" None ].

(** ** Further invariants *)

(** Every entry of the registry names an existing session object that
    carries the identifier it is registered under and is open. *)
Definition registry_sound (w : World) : Prop :=
  forall id ref, (id, ref) ∈ _sessions (connection w) ->
    exists s, heap w !! ref = Some s
              /\ _sessionId s = id
              /\ _connection s = Some this_connection.

(** The identifiers sent so far are 1, 2, ..., [_lastId]. *)
Definition ids_consecutive (w : World) : Prop :=
  0 <= _lastId (connection w)
  /\ sent_ids (trace w) = seqZ 1 (_lastId (connection w)).

(** How one session object may change: it keeps its identifier, once
    closed it stays closed, and when it loses its connection it has no
    pending command left. *)
Definition session_step (s s' : CDPSession) : Prop :=
  _sessionId s' = _sessionId s
  /\ (is_closed s -> is_closed s')
  /\ (_connection s = Some this_connection -> _connection s' = None ->
      is_closed s').

(** Every object of heap [h] is in [h'], changed along [session_step];
    the objects that are new in [h'] are open, or closed without pending
    command. *)
Definition sessions_evolve (h h' : list CDPSession) : Prop :=
  (forall ref s, h !! ref = Some s ->
     exists s', h' !! ref = Some s' /\ session_step s s')
  /\ (forall ref s', h' !! ref = Some s' -> h !! ref = None ->
      _connection s' = None -> is_closed s').

(** Pending identifiers were issued, starting from 1. *)
Definition keys_issued (l : Z) (h : list CDPSession) : Prop :=
  forall ref s k, h !! ref = Some s -> k ∈ JsMap.keys (_callbacks s) ->
    0 < k <= l.

(** No identifier is pending in two sessions. *)
Definition keys_disjoint (h : list CDPSession) : Prop :=
  forall ref1 ref2 s1 s2 k,
    h !! ref1 = Some s1 -> h !! ref2 = Some s2 ->
    k ∈ JsMap.keys (_callbacks s1) -> k ∈ JsMap.keys (_callbacks s2) ->
    ref1 = ref2.

(** The token of a pending command is the one captured for its
    identifier, with its message still empty. *)
Definition tokens_captured (h : list CDPSession) : Prop :=
  forall ref s k callback,
    h !! ref = Some s -> JsMap.get k (_callbacks s) = Some callback ->
    cb_from callback = new_Error (at_sendOrDie_from k) EmptyString.

Definition keys_sound (l : Z) (h : list CDPSession) : Prop :=
  0 <= l /\ keys_issued l h /\ keys_disjoint h.

(** A property of the last identifier and the session objects, at a
    world. *)
Definition holds (I : Z -> list CDPSession -> Prop) (w : World) : Prop :=
  I (_lastId (connection w)) (heap w).

(** Session A1 created again while its first object awaits a reply. *)
Definition replaced_run : list Op :=
  duplicate_run ++ [call_createSession "A1"].

(** ** Runs that keep the root session registered *)

(** Does the operation change what is registered under the empty
    identifier?  Creating a session for it, disposing a session that
    carries it, and closing the connection do. *)
Definition touches_root (op : Op) (w : World) : bool :=
  match op with
  | call_createSession id => bool_decide (id = EmptyString)
  | call_session_dispose s =>
      match heap w !! s with
      | Some s0 => bool_decide (_sessionId s0 = EmptyString)
      | None => false
      end
  | call_dispose | transport_close => true
  | _ => false
  end.

Fixpoint root_kept (ops : list Op) (w : World) : bool :=
  match ops with
  | [] => true
  | op :: ops' => negb (touches_root op w) && root_kept ops' (exec op w)
  end.


Definition error_event : ProtocolResponse :=
  {| msg_id := None; msg_method := Some "error";
     msg_params := Some (JObject [("reason", JString "other")]);
     msg_result := None; msg_error := None; msg_sessionId := None |}.

(** ** Facts about [JsMap] *)

Section jsmap_facts.
Context {K V : Type} `{EqDecision K}.
Implicit Types (m : JsMap.t K V) (k : K) (v : V).

Lemma get_Some_elem k v m : JsMap.get k m = Some v -> (k, v) ∈ m.
Proof.
    induction m as [|[k' v'] m IH]; simpl; [done|].
    case_decide; intros Hg.
    - simplify_eq. left.
    - right. auto.
Qed.

Lemma get_Some_values k v m : JsMap.get k m = Some v -> v ∈ JsMap.values m.
Proof.
    intros Hg%get_Some_elem. unfold JsMap.values.
    apply list_elem_of_fmap. by exists (k, v).
Qed.


Lemma get_None_keys k m : JsMap.get k m = None <-> k ∉ JsMap.keys m.
Proof.
    induction m as [|[k' v'] m IH]; simpl.
    - split; [intros _; apply not_elem_of_nil | done].
    - rewrite not_elem_of_cons. case_decide as Hk.
      + split; [done | intros [? _]; done].
      + rewrite IH. split; [by split | by intros [_ ?]].
Qed.

Lemma has_get k m : JsMap.has k m = true <-> is_Some (JsMap.get k m).
Proof.
  unfold JsMap.has.
  destruct (JsMap.get k m); [split; eauto | split; [done | by intros [? ?]]].
Qed.

Lemma has_false k m : JsMap.has k m = false <-> JsMap.get k m = None.
Proof. unfold JsMap.has. by destruct (JsMap.get k m). Qed.

Lemma set_fresh k v m : k ∉ JsMap.keys m -> JsMap.set k v m = m ++ [(k, v)].
Proof.
    induction m as [|[k' v'] m IH]; simpl; [done|].
    rewrite not_elem_of_cons. intros [Hne Hnot].
    case_decide; [done|]. by rewrite IH.
Qed.

Lemma get_set_eq k v m : JsMap.get k (JsMap.set k v m) = Some v.
Proof.
    induction m as [|[k' v'] m IH]; simpl.
    - by case_decide.
    - case_decide; simpl; by case_decide.
Qed.

Lemma get_set_ne k k' v m :
    k <> k' -> JsMap.get k' (JsMap.set k v m) = JsMap.get k' m.
Proof.
    intros Hne. induction m as [|[k2 v2] m IH]; simpl.
    - by case_decide.
    - case_decide; simpl; repeat case_decide; simplify_eq; done.
Qed.


Lemma get_delete_eq k m : JsMap.get k (JsMap.delete k m) = None.
Proof.
    induction m as [|[k2 v2] m IH]; simpl; [done|].
    case_decide; simpl; [done|]. by case_decide.
Qed.

Lemma get_delete_ne k k' m :
    k <> k' -> JsMap.get k' (JsMap.delete k m) = JsMap.get k' m.
Proof.
    intros Hne. induction m as [|[k2 v2] m IH]; simpl; [done|].
    repeat (case_decide; simpl); simplify_eq; done.
Qed.

Lemma keys_delete k k' m :
  k' ∈ JsMap.keys (JsMap.delete k m) -> k' ∈ JsMap.keys m.
Proof.
  induction m as [|[k2 v2] m IH]; simpl; [done|].
  case_decide; simpl; rewrite ?elem_of_cons; intuition.
Qed.


Lemma NoDup_keys_delete k m :
  NoDup (JsMap.keys m) -> NoDup (JsMap.keys (JsMap.delete k m)).
Proof.
  induction m as [|[k2 v2] m IH]; simpl; [done|].
  rewrite NoDup_cons. intros [Hnot Hnd].
  case_decide; simpl; [auto|].
  apply NoDup_cons. split; [|auto].
  intros Hin. apply Hnot. by eapply keys_delete.
Qed.

Lemma delete_absent k m : k ∉ JsMap.keys m -> JsMap.delete k m = m.
Proof.
    induction m as [|[k2 v2] m IH]; simpl; [done|].
    rewrite not_elem_of_cons. intros [Hne Hnot].
    case_decide; [done|]. by rewrite IH.
Qed.

  (** Deleting a bound key removes exactly its binding. *)
Lemma filter_values_delete (P : V -> Prop) `{!forall v, Decision (P v)} k v m :
  NoDup (JsMap.keys m) -> JsMap.get k m = Some v ->
  length (filter P (JsMap.values m))
  = (length (filter P (JsMap.values (JsMap.delete k m)))
     + if decide (P v) then 1 else 0)%nat.
Proof.
  induction m as [|[k2 v2] m IH]; simpl; [done|].
  rewrite NoDup_cons. intros [Hnot Hnd].
  destruct (decide (k = k2)) as [->|Hk]; intros Hg.
  - injection Hg as ->. rewrite (delete_absent k2 m Hnot).
    rewrite filter_cons. destruct (decide (P v)); simpl; lia.
  - simpl. rewrite !filter_cons. specialize (IH Hnd Hg).
    destruct (decide (P v2)); simpl; lia.
Qed.

Lemma keys_set_fresh k v m :
    k ∉ JsMap.keys m -> JsMap.keys (JsMap.set k v m) = JsMap.keys m ++ [k].
Proof.
    intros Hk. rewrite (set_fresh k v m Hk). unfold JsMap.keys.
    by rewrite fmap_app.
Qed.

Lemma values_set_fresh k v m :
    k ∉ JsMap.keys m -> JsMap.values (JsMap.set k v m) = JsMap.values m ++ [v].
Proof.
    intros Hk. rewrite (set_fresh k v m Hk). unfold JsMap.values.
    by rewrite fmap_app.
Qed.
End jsmap_facts.

(** ** What each method does to the world *)

Lemma forEach_effect {A} (f : A -> Effect) (l : list A) (w : World) :
  forEach (fun x => effect (f x)) l w = (Normal tt, add_trace (map f l) w).
Proof.
  revert w. induction l as [|x l IH]; intros w.
  - destruct w. unfold add_trace. simpl. by rewrite app_nil_r.
  - simpl. unfold bind at 1. simpl. rewrite IH. unfold add_trace. simpl.
    by rewrite <- app_assoc.
Qed.

Lemma Connection_send_eq method params sid w :
  Connection_send method params sid w
  = let id := _lastId (connection w) + 1 in
    let message :=
      {| cmd_id := id; cmd_method := method;
         cmd_params := default (JObject []) params;
         cmd_sessionId := if truthy_string sid then Some sid else None |} in
    (Normal id,
     {| listeners := listeners w; connection := set_lastId id (connection w); heap := heap w;
        promises := promises w;
        trace := trace w
                 ++ [TransportSend message (JSON_stringify (command_to_json message))] |}).
Proof. reflexivity. Qed.

Lemma sendOrDie_dangling this method params w :
  heap w !! this = None ->
  sendOrDie this method params w = (Throw (new_Error at_runtime_TypeError EmptyString), w).
Proof. intros Hs. unfold sendOrDie, bind, deref. by rewrite Hs. Qed.

Lemma sendOrDie_closed_eq this s method params w :
  heap w !! this = Some s -> _connection s = None ->
  sendOrDie this method params w
  = (Normal (promises w),
     {| listeners := listeners w; connection := connection w; heap := heap w;
        promises := S (promises w);
        trace := trace w
          ++ [Reject (promises w)
                (new_Error at_sendOrDie_closed
                   ("Protocol error (" +:+ method +:+
                    "): Session closed. Most likely the target has been closed."))] |}).
Proof.
  intros Hs Hc. unfold sendOrDie, bind, deref. rewrite Hs, Hc. reflexivity.
Qed.

Lemma sendOrDie_open_eq this s c method params w :
  heap w !! this = Some s -> _connection s = Some c ->
  sendOrDie this method params w
  = let id := _lastId (connection w) + 1 in
    let message :=
      {| cmd_id := id; cmd_method := method;
         cmd_params := default (JObject []) params;
         cmd_sessionId :=
           if truthy_string (_sessionId s) then Some (_sessionId s) else None |} in
    (Normal (promises w),
     {| listeners := listeners w; connection := set_lastId id (connection w);
        heap := <[this := set_callbacks
                    (JsMap.set id {| cb_promise := promises w;
                                     cb_from := new_Error (at_sendOrDie_from id) EmptyString;
                                     cb_method := method |} (_callbacks s)) s]> (heap w);
        promises := S (promises w);
        trace := trace w
                 ++ [TransportSend message (JSON_stringify (command_to_json message))] |}).
Proof.
  intros Hs Hc. unfold sendOrDie, bind at 1, deref at 1. rewrite Hs, Hc.
  unfold bind. rewrite Connection_send_eq. simpl.
  unfold deref. simpl. rewrite Hs. reflexivity.
Qed.

Lemma string_app_assoc (a b c : string) : (a +:+ b) +:+ c = a +:+ b +:+ c.
Proof.
  induction a as [|x a IH]; [done|].
  change (String x ((a +:+ b) +:+ c) = String x (a +:+ b +:+ c)).
  by f_equal.
Qed.

Lemma onMessage_dangling this object w :
  heap w !! this = None ->
  CDPSession_onMessage this object w
  = (Throw (new_Error at_runtime_TypeError EmptyString), w).
Proof. intros Hs. unfold CDPSession_onMessage, bind, deref. by rewrite Hs. Qed.

Lemma onMessage_reply this s id callback object w :
  heap w !! this = Some s -> msg_id object = Some id -> id <> 0 ->
  JsMap.get id (_callbacks s) = Some callback ->
  CDPSession_onMessage this object w
  = (Normal tt,
     {| listeners := listeners w; connection := connection w;
        heap := <[this := set_callbacks (JsMap.delete id (_callbacks s)) s]> (heap w);
        promises := promises w;
        trace := trace w ++ [reply_settlement callback object] |}).
Proof.
  intros Hs Hid Hnz Hg. unfold CDPSession_onMessage, bind at 1, deref.
  rewrite Hs, Hid. simpl.
  assert (Hh : JsMap.has id (_callbacks s) = true) by (apply has_get; eauto).
  rewrite Hh, Hg. apply Z.eqb_neq in Hnz. rewrite Hnz. simpl.
  unfold reply_settlement, bind. simpl.
  destruct (msg_error object) as [error|]; simpl; [|done].
  by rewrite !string_app_assoc.
Qed.

Lemma onMessage_unexpected this s id object w :
  heap w !! this = Some s -> msg_id object = Some id -> id <> 0 ->
  JsMap.get id (_callbacks s) = None ->
  CDPSession_onMessage this object w
  = (Throw (new_Error at_CDPSession_onMessage EmptyString), w).
Proof.
  intros Hs Hid Hnz Hg. unfold CDPSession_onMessage, bind at 1, deref.
  rewrite Hs, Hid. simpl.
  assert (Hh : JsMap.has id (_callbacks s) = false) by (by apply has_false).
  rewrite Hh. apply Z.eqb_neq in Hnz. rewrite Hnz. reflexivity.
Qed.

Lemma unhandled_error_spec this (name : option string)
    (l : list (SessionRef * EventName)) :
  if unhandled_error this (ev_method name) l
  then name = Some "error"%string
       /\ (this, ev_method (Some "error"%string)) ∉ l
  else name <> Some "error"%string
       \/ (this, ev_method (Some "error"%string)) ∈ l.
Proof.
  unfold unhandled_error, is_error_event, has_listener.
  destruct name as [name|]; [|by left].
  destruct (decide (name = "error"%string)) as [->|Hne]; simpl.
  - case_bool_decide; simpl; [by right | by split].
  - left. congruence.
Qed.

Lemma emit_eq this event args w :
  emit this event args w
  = if unhandled_error this event (listeners w)
    then (Throw (new_Error at_EventEmitter_emit
                   (ERR_UNHANDLED_ERROR (hd VUndefined args))), w)
    else (Normal tt, add_trace [Emit this event args] w).
Proof. unfold emit. by destruct (unhandled_error _ _ _). Qed.

Lemma onMessage_event this s object w :
  heap w !! this = Some s -> truthy_number (msg_id object) = false ->
  CDPSession_onMessage this object w
  = emit this (ev_method (msg_method object)) [value_of (msg_params object)] w.
Proof.
  intros Hs Hid. unfold CDPSession_onMessage, bind at 1, deref.
  rewrite Hs, Hid. reflexivity.
Qed.

(** An event changes nothing, or adds its emission to the trace. *)
Lemma onMessage_event_world this s object w :
  heap w !! this = Some s -> truthy_number (msg_id object) = false ->
  snd (CDPSession_onMessage this object w) = w
  \/ snd (CDPSession_onMessage this object w)
     = add_trace [Emit this (ev_method (msg_method object))
                    [value_of (msg_params object)]] w.
Proof.
  intros Hs Hid. rewrite (onMessage_event _ _ _ _ Hs Hid), emit_eq.
  destruct (unhandled_error _ _ _); auto.
Qed.

Lemma onClose_dangling this w :
  heap w !! this = None ->
  CDPSession_onClose this w = (Throw (new_Error at_runtime_TypeError EmptyString), w).
Proof. intros Hs. unfold CDPSession_onClose, bind, deref. by rewrite Hs. Qed.

Lemma onClose_eq this s w :
  heap w !! this = Some s ->
  CDPSession_onClose this w
  = (Normal tt,
     {| listeners := listeners w; connection := connection w;
        heap := <[this := closed_session s]> (heap w);
        promises := promises w;
        trace := trace w
                 ++ map close_rejection (JsMap.values (_callbacks s))
                 ++ [Emit this ev_Disconnected []] |}).
Proof.
  intros Hs. unfold CDPSession_onClose, bind at 1, deref at 1. rewrite Hs.
  unfold bind at 1, reject.
  rewrite (forEach_effect close_rejection).
  unfold bind, deref, add_trace. simpl. rewrite Hs. simpl.
  assert (Hlt : (this < length (heap w))%nat) by (by eapply lookup_lt_Some).
  rewrite list_lookup_insert_eq by done. simpl.
  rewrite list_insert_insert_eq.
  unfold closed_session, emit, effect. simpl.
  by rewrite <- app_assoc.
Qed.

(** ** Counting lemmas *)

Lemma settle_calls_app p t1 t2 :
  settle_calls p (t1 ++ t2) = (settle_calls p t1 + settle_calls p t2)%nat.
Proof.
  induction t1 as [|e t1 IH]; simpl; [done|].
  destruct e; try done; case_decide; lia.
Qed.

Lemma settle_calls_close_rejections p (l : list ProtocolCallback) :
  settle_calls p (map close_rejection l)
  = length (filter (fun cb => cb_promise cb = p) l).
Proof.
  induction l as [|cb l IH]; simpl; [done|].
  rewrite filter_cons.
  destruct (decide (p = cb_promise cb)) as [->|Hne].
  - rewrite decide_True by done. simpl. by rewrite IH.
  - rewrite decide_False by done. done.
Qed.

Lemma settle_calls_reply p callback object :
  settle_calls p [reply_settlement callback object]
  = if decide (cb_promise callback = p) then 1%nat else 0%nat.
Proof.
  unfold reply_settlement.
  destruct (msg_error object); simpl; repeat case_decide; congruence.
Qed.

Lemma sum_insert {A} (f : A -> nat) (l : list A) i x y :
  l !! i = Some x ->
  (sum_list_with f (<[i := y]> l) + f x = sum_list_with f l + f y)%nat.
Proof.
  revert i. induction l as [|a l IH]; intros [|i]; simpl; try done.
  - intros [= ->]. lia.
  - intros Hi. specialize (IH i Hi). lia.
Qed.

Lemma sum_snoc {A} (f : A -> nat) (l : list A) x :
  sum_list_with f (l ++ [x]) = (sum_list_with f l + f x)%nat.
Proof. rewrite sum_list_with_app. simpl. lia. Qed.



Lemma awaiting_set_fresh p k callback s :
  k ∉ JsMap.keys (_callbacks s) ->
  awaiting p (set_callbacks (JsMap.set k callback (_callbacks s)) s)
  = (awaiting p s + if decide (cb_promise callback = p) then 1 else 0)%nat.
Proof.
  intros Hk. unfold awaiting. simpl. rewrite values_set_fresh by done.
  rewrite filter_app, length_app, filter_cons, filter_nil.
  by case_decide.
Qed.

Lemma awaiting_delete p k callback s :
  NoDup (JsMap.keys (_callbacks s)) ->
  JsMap.get k (_callbacks s) = Some callback ->
  awaiting p s
  = (awaiting p (set_callbacks (JsMap.delete k (_callbacks s)) s)
     + if decide (cb_promise callback = p) then 1 else 0)%nat.
Proof.
  intros Hnd Hg. unfold awaiting. simpl.
  by rewrite (filter_values_delete _ k callback).
Qed.

(** ** [settled_once] is an invariant *)

Lemma settled_once_new : settled_once new_Connection.
Proof.
  split; simpl.
  - intros p. unfold pending. simpl. done.
  - intros [|[|ref]] s; simpl; intros [=]; subst; simpl. constructor.
  - intros [|[|ref]] s k; simpl; intros [=]; subst; simpl.
    by intros ?%elem_of_nil.
Qed.

(** Changes to the connection that keep [_lastId], and effects that
    settle nothing, keep the invariant. *)
Lemma settled_once_frame w w' :
  heap w' = heap w -> promises w' = promises w ->
  (forall p, settle_calls p (trace w') = settle_calls p (trace w)) ->
  _lastId (connection w) <= _lastId (connection w') ->
  settled_once w -> settled_once w'.
Proof.
  intros Hh Hp Ht Hl [Hc Hk Hi]. split.
  - intros p. unfold pending. rewrite Hh, Hp, Ht. apply Hc.
  - intros ref s. rewrite Hh. apply Hk.
  - intros ref s k. rewrite Hh. intros Hs Hin.
    specialize (Hi ref s k Hs Hin). lia.
Qed.

Lemma settled_once_sendOrDie this method params w :
  settled_once w -> settled_once (snd (sendOrDie this method params w)).
Proof.
  intros Hinv. destruct (heap w !! this) as [s|] eqn:Hs.
  2: { by rewrite sendOrDie_dangling. }
  destruct Hinv as [Hc Hk Hi].
  destruct (_connection s) as [c|] eqn:Hconn.
  - rewrite (sendOrDie_open_eq _ _ _ _ _ _ Hs Hconn). simpl.
    assert (Hfresh : _lastId (connection w) + 1 ∉ JsMap.keys (_callbacks s)).
    { intros Hin. specialize (Hi _ _ _ Hs Hin). lia. }
    split; simpl.
    + intros p. specialize (Hc p). unfold pending in *. simpl.
      rewrite settle_calls_app. simpl.
      pose proof (sum_insert (awaiting p) (heap w) this s
        (set_callbacks (JsMap.set (_lastId (connection w) + 1)
           {| cb_promise := promises w;
              cb_from := new_Error (at_sendOrDie_from (_lastId (connection w) + 1)) EmptyString;
              cb_method := method |} (_callbacks s)) s) Hs) as Hsum.
      rewrite awaiting_set_fresh in Hsum by done. simpl in Hsum.
      repeat case_decide; lia.
    + intros ref s' Hs'.
      destruct (decide (ref = this)) as [->|Hne].
      * rewrite list_lookup_insert_eq in Hs' by (by eapply lookup_lt_Some).
        injection Hs' as <-. simpl. rewrite keys_set_fresh by done.
        apply NoDup_app. split; [by eapply Hk|]. split.
        -- intros k Hin Hk'. apply list_elem_of_singleton in Hk'. by subst k.
        -- apply NoDup_singleton.
      * rewrite list_lookup_insert_ne in Hs' by done. by eapply Hk.
    + intros ref s' k Hs' Hin.
      destruct (decide (ref = this)) as [->|Hne].
      * rewrite list_lookup_insert_eq in Hs' by (by eapply lookup_lt_Some).
        injection Hs' as <-. simpl in Hin. rewrite keys_set_fresh in Hin by done.
        apply elem_of_app in Hin as [Hin|Hin].
        -- specialize (Hi _ _ _ Hs Hin). lia.
        -- apply list_elem_of_singleton in Hin. lia.
      * rewrite list_lookup_insert_ne in Hs' by done.
        specialize (Hi _ _ _ Hs' Hin). lia.
  - rewrite (sendOrDie_closed_eq _ _ _ _ _ Hs Hconn). simpl.
    split; simpl; [|done..].
    intros p. specialize (Hc p). unfold pending in *. simpl.
    rewrite settle_calls_app. simpl.
    repeat case_decide; lia.
Qed.

Lemma truthy_number_true n :
  truthy_number n = true -> exists id, n = Some id /\ id <> 0.
Proof.
  destruct n as [id|]; simpl; [|done].
  intros Hnz. exists id. split; [done|].
  intros ->. done.
Qed.

Lemma settled_once_onMessage this object w :
  settled_once w -> settled_once (snd (CDPSession_onMessage this object w)).
Proof.
  intros Hinv. destruct (heap w !! this) as [s|] eqn:Hs.
  2: { by rewrite onMessage_dangling. }
  destruct (truthy_number (msg_id object)) eqn:Htruthy.
  2: { destruct (onMessage_event_world _ _ _ _ Hs Htruthy) as [-> | ->]; [done|].
       apply (settled_once_frame w); simpl; [done | done | | lia | done].
       intros p. rewrite settle_calls_app. simpl. lia. }
  apply truthy_number_true in Htruthy as (id & Hid & Hnz).
  destruct (JsMap.get id (_callbacks s)) as [callback|] eqn:Hg.
  2: { by rewrite (onMessage_unexpected _ _ _ _ _ Hs Hid Hnz Hg). }
  rewrite (onMessage_reply _ _ _ _ _ _ Hs Hid Hnz Hg). simpl.
  destruct Hinv as [Hc Hk Hi]. split; simpl.
  - intros p. specialize (Hc p). unfold pending in *. simpl.
    rewrite settle_calls_app, settle_calls_reply.
    pose proof (sum_insert (awaiting p) (heap w) this s
      (set_callbacks (JsMap.delete id (_callbacks s)) s) Hs) as Hsum.
    rewrite (awaiting_delete p id callback s) in Hsum at 1
      by (by eauto).
    repeat case_decide; lia.
  - intros ref s' Hs'.
    destruct (decide (ref = this)) as [->|Hne].
    + rewrite list_lookup_insert_eq in Hs' by (by eapply lookup_lt_Some).
      injection Hs' as <-. simpl. apply NoDup_keys_delete. by eapply Hk.
    + rewrite list_lookup_insert_ne in Hs' by done. by eapply Hk.
  - intros ref s' k Hs' Hin.
    destruct (decide (ref = this)) as [->|Hne].
    + rewrite list_lookup_insert_eq in Hs' by (by eapply lookup_lt_Some).
      injection Hs' as <-. simpl in Hin. apply keys_delete in Hin.
      by eapply Hi.
    + rewrite list_lookup_insert_ne in Hs' by done. by eapply Hi.
Qed.

Lemma settled_once_onClose this w :
  settled_once w -> settled_once (snd (CDPSession_onClose this w)).
Proof.
  intros Hinv. destruct (heap w !! this) as [s|] eqn:Hs.
  2: { by rewrite onClose_dangling. }
  rewrite (onClose_eq _ _ _ Hs). simpl.
  destruct Hinv as [Hc Hk Hi]. split; simpl.
  - intros p. specialize (Hc p). unfold pending in *. simpl.
    rewrite !settle_calls_app, settle_calls_close_rejections. simpl.
    fold (awaiting p s).
    pose proof (sum_insert (awaiting p) (heap w) this s (closed_session s) Hs)
      as Hsum.
    change (awaiting p (closed_session s)) with O in Hsum. lia.
  - intros ref s' Hs'.
    destruct (decide (ref = this)) as [->|Hne].
    + rewrite list_lookup_insert_eq in Hs' by (by eapply lookup_lt_Some).
      injection Hs' as <-. simpl. constructor.
    + rewrite list_lookup_insert_ne in Hs' by done. by eapply Hk.
  - intros ref s' k Hs' Hin.
    destruct (decide (ref = this)) as [->|Hne].
    + rewrite list_lookup_insert_eq in Hs' by (by eapply lookup_lt_Some).
      injection Hs' as <-. simpl in Hin. by apply elem_of_nil in Hin.
    + rewrite list_lookup_insert_ne in Hs' by done. by eapply Hi.
Qed.

Lemma settled_once_forEach_onClose refs w :
  settled_once w -> settled_once (snd (forEach CDPSession_onClose refs w)).
Proof.
  revert w. induction refs as [|ref refs IH]; intros w Hinv; simpl; [done|].
  unfold bind. pose proof (settled_once_onClose ref w Hinv) as Hstep.
  destruct (CDPSession_onClose ref w) as [[[]|e] w1]; simpl in *; auto.
Qed.

(** *** The methods of the connection *)

Lemma createSession_eq id w :
  createSession id w
  = (Normal (length (heap w)),
     {| listeners := listeners w; connection :=
          set_sessions (JsMap.set id (length (heap w)) (_sessions (connection w)))
            (connection w);
        heap := heap w ++ [new_session id];
        promises := promises w; trace := trace w |}).
Proof. reflexivity. Qed.

Lemma Connection_onMessage_eq object w :
  Connection_onMessage object w
  = match JsMap.get (or_empty (msg_sessionId object)) (_sessions (connection w)) with
    | Some s => CDPSession_onMessage s object w
    | None =>
        (Throw (new_Error at_Connection_onMessage
                  ("Unknown session id: " +:+ template (msg_sessionId object))), w)
    end.
Proof.
  unfold Connection_onMessage, bind, get_connection.
  by destruct (JsMap.get _ _).
Qed.

Lemma onTransportClose_closed w :
  _closed (connection w) = true -> Connection_onTransportClose w = (Normal tt, w).
Proof.
  intros Hc. unfold Connection_onTransportClose, bind, get_connection.
  by rewrite Hc.
Qed.

Lemma onTransportClose_open w :
  _closed (connection w) = false ->
  Connection_onTransportClose w
  = match forEach CDPSession_onClose (JsMap.values (_sessions (connection w)))
            (with_connection
               (set_transport {| onmessage := false; onclose := false |}
                  (set_closed true (connection w))) w) with
    | (Normal _, w') =>
        (Normal tt, with_connection (set_sessions [] (connection w')) w')
    | (Throw e, w') => (Throw e, w')
    end.
Proof.
  intros Hc. unfold Connection_onTransportClose, bind at 1, get_connection.
  rewrite Hc. reflexivity.
Qed.

Lemma disposeSession_eq this s w :
  heap w !! this = Some s ->
  Connection_disposeSession this w
  = (Normal tt,
     {| listeners := listeners w; connection :=
          set_sessions (JsMap.delete (_sessionId s) (_sessions (connection w)))
            (connection w);
        heap := <[this := closed_session s]> (heap w);
        promises := promises w;
        trace := trace w
                 ++ map close_rejection (JsMap.values (_callbacks s))
                 ++ [Emit this ev_Disconnected []] |}).
Proof.
  intros Hs. unfold Connection_disposeSession, bind at 1.
  rewrite (onClose_eq _ _ _ Hs).
  unfold sessionId, deref, bind. simpl.
  rewrite list_lookup_insert_eq by (by eapply lookup_lt_Some).
  reflexivity.
Qed.

Lemma session_dispose_eq this w :
  CDPSession_dispose this w
  = match heap w !! this with
    | None => (Throw (new_Error at_runtime_TypeError EmptyString), w)
    | Some s =>
        match _connection s with
        | Some _ => Connection_disposeSession this w
        | None => (Normal tt, w)
        end
    end.
Proof.
  unfold CDPSession_dispose, bind, deref.
  destruct (heap w !! this) as [s|]; [|done]. by destruct (_connection s).
Qed.

Lemma detach_eq this w :
  detach this w
  = match heap w !! this with
    | None => (Throw (new_Error at_runtime_TypeError EmptyString), w)
    | Some s =>
        match _connection s with
        | Some _ =>
            (Normal tt,
             snd (Connection_send "Target.detachFromTarget" (Some (JObject []))
                    (_sessionId s) w))
        | None =>
            (Throw (new_Error at_detach
               "Session already detached. Most likely the target has been closed."), w)
        end
    end.
Proof.
  unfold detach, bind, deref.
  destruct (heap w !! this) as [s|]; [|done]. by destruct (_connection s).
Qed.

Lemma send_world this method params w :
  snd (send this method params w) = snd (sendOrDie this method params w).
Proof.
  unfold send, bind. by destruct (sendOrDie this method params w) as [[p|e] w'].
Qed.

Lemma settled_once_onTransportClose w :
  settled_once w -> settled_once (snd (Connection_onTransportClose w)).
Proof.
  intros Hinv. destruct (_closed (connection w)) eqn:Hc.
  { by rewrite onTransportClose_closed. }
  rewrite onTransportClose_open by done.
  match goal with |- context [forEach ?f ?l ?w0] =>
    pose proof (settled_once_forEach_onClose l w0) as Hloop;
    destruct (forEach f l w0) as [[[]|e] w']
  end; simpl in *.
  - eapply (settled_once_frame w'); simpl; [done | done | done | lia |].
    apply Hloop. eapply (settled_once_frame w); simpl; [done..| lia | done].
  - apply Hloop. eapply (settled_once_frame w); simpl; [done..| lia | done].
Qed.

Lemma settled_once_exec op w : settled_once w -> settled_once (exec op w).
Proof.
  intros Hinv. destruct op as [id|s m ps|s m ps|s|s| |object| |s ev|s ev]; cbn [exec].
  - rewrite createSession_eq. simpl. destruct Hinv as [Hc Hk Hi].
    split; simpl.
    + intros p. unfold pending in *. simpl. rewrite sum_snoc.
      change (awaiting p (new_session id)) with O. rewrite <- (Hc p). lia.
    + intros ref s' [[_ Hs']|[_ <-]]%lookup_snoc_Some; [by eapply Hk|].
      simpl. constructor.
    + intros ref s' k [[_ Hs']|[_ <-]]%lookup_snoc_Some Hin; [by eapply Hi|].
      by apply elem_of_nil in Hin.
  - by apply settled_once_sendOrDie.
  - rewrite send_world. by apply settled_once_sendOrDie.
  - rewrite detach_eq. destruct (heap w !! s) as [s0|]; [|done].
    destruct (_connection s0); [|done]. simpl.
    eapply (settled_once_frame w); simpl; [done | done | | lia | done].
    intros p. rewrite settle_calls_app. simpl. lia.
  - rewrite session_dispose_eq. destruct (heap w !! s) as [s0|] eqn:Hs; [|done].
    destruct (_connection s0); [|done].
    rewrite (disposeSession_eq _ _ _ Hs). simpl.
    pose proof (settled_once_onClose s w Hinv) as Hclose.
    rewrite (onClose_eq _ _ _ Hs) in Hclose. simpl in Hclose.
    eapply settled_once_frame; [..|exact Hclose]; simpl; [done..|lia].
  - unfold Connection_dispose, bind.
    pose proof (settled_once_onTransportClose w Hinv) as Hclose.
    destruct (Connection_onTransportClose w) as [[[]|e] w']; simpl in *; [|done].
    eapply settled_once_frame; [..|exact Hclose]; simpl; [done | done | | lia].
    intros p. rewrite settle_calls_app. simpl. lia.
  - destruct (onmessage _); [|done]. rewrite Connection_onMessage_eq.
    destruct (JsMap.get _ _) as [s|]; [|done].
    by apply settled_once_onMessage.
  - destruct (onclose _); [|done]. by apply settled_once_onTransportClose.
  - apply (settled_once_frame w); simpl; [done | done | done | lia | done].
  - apply (settled_once_frame w); simpl; [done | done | done | lia | done].
Qed.

Lemma settled_once_run ops w : settled_once w -> settled_once (run ops w).
Proof.
  revert w. induction ops as [|op ops IH]; intros w Hinv; simpl; [done|].
  by apply IH, settled_once_exec.
Qed.

(** ** [registered_or_closed] is an invariant of well-behaved callers *)






Lemma is_closed_closed_session s : is_closed (closed_session s).
Proof. by split. Qed.

Lemma registered_onClose this w :
  registered_or_closed w -> registered_or_closed (snd (CDPSession_onClose this w)).
Proof.
  intros Hinv. destruct (heap w !! this) as [s|] eqn:Hs.
  2: { by rewrite onClose_dangling. }
  rewrite (onClose_eq _ _ _ Hs). simpl. destruct Hinv as [Hreg Hval].
  split; simpl.
  - intros ref s0. destruct (decide (ref = this)) as [->|Hne].
    + rewrite list_lookup_insert_eq by (by eapply lookup_lt_Some).
      intros [= <-]. right. apply is_closed_closed_session.
    + rewrite list_lookup_insert_ne by done. apply Hreg.
  - intros ref. rewrite length_insert. apply Hval.
Qed.

(** Closing the sessions of a list of existing objects: the loop runs
    to its end and closes exactly those. *)
Lemma forEach_onClose_eq refs w :
  (forall ref, ref ∈ refs -> (ref < length (heap w))%nat) ->
  exists w',
    forEach CDPSession_onClose refs w = (Normal tt, w')
    /\ connection w' = connection w
    /\ promises w' = promises w
    /\ length (heap w') = length (heap w)
    /\ forall ref s, heap w !! ref = Some s ->
         heap w' !! ref
         = Some (if decide (ref ∈ refs) then closed_session s else s).
Proof.
  revert w. induction refs as [|r refs IH]; intros w Hvalid.
  - exists w. simpl. repeat split; done.
  - destruct (lookup_lt_is_Some_2 (heap w) r) as [s0 Hs0].
    { apply Hvalid. left. }
    simpl. unfold bind. rewrite (onClose_eq _ _ _ Hs0).
    match goal with |- context [forEach _ _ ?w1] =>
      destruct (IH w1) as (w' & Hrun & Hconn & Hprom & Hlen & Hheap)
    end.
    { simpl. intros ref Hin. rewrite length_insert. apply Hvalid. by right. }
    exists w'. simpl in *. rewrite length_insert in Hlen.
    repeat split; try done.
    intros ref s Hs. destruct (decide (ref = r)) as [->|Hne].
    + rewrite decide_True by left. rewrite Hs0 in Hs. injection Hs as <-.
      rewrite (Hheap r (closed_session s0)).
      * by case_decide.
      * apply list_lookup_insert_eq. by eapply lookup_lt_Some.
    + rewrite (Hheap ref s) by (by rewrite list_lookup_insert_ne).
      destruct (decide (ref ∈ refs)) as [Hin|Hnin].
      * rewrite decide_True; [done | by right].
      * rewrite decide_False; [done|].
        intros [?|?]%elem_of_cons; done.
Qed.





(** ** [ids_increasing] is an invariant *)

Lemma sent_ids_app t1 t2 : sent_ids (t1 ++ t2) = sent_ids t1 ++ sent_ids t2.
Proof.
  induction t1 as [|e t1 IH]; simpl; [done|].
  destruct e; simpl; by rewrite ?IH.
Qed.

Lemma sent_ids_close_rejections (l : list ProtocolCallback) :
  sent_ids (map close_rejection l) = [].
Proof. by induction l. Qed.

Lemma quiet_refl w : quiet w w.
Proof. by split. Qed.

Lemma quiet_trans w1 w2 w3 : quiet w1 w2 -> quiet w2 w3 -> quiet w1 w3.
Proof. intros [? ?] [? ?]. split; congruence. Qed.

Lemma quiet_onMessage this object w :
  quiet w (snd (CDPSession_onMessage this object w)).
Proof.
  destruct (heap w !! this) as [s|] eqn:Hs.
  2: { rewrite onMessage_dangling by done. apply quiet_refl. }
  destruct (truthy_number (msg_id object)) eqn:Htruthy.
  2: { destruct (onMessage_event_world _ _ _ _ Hs Htruthy) as [-> | ->];
         [apply quiet_refl|].
       split; simpl; [|done].
       rewrite sent_ids_app. simpl. by rewrite app_nil_r. }
  apply truthy_number_true in Htruthy as (id & Hid & Hnz).
  destruct (JsMap.get id (_callbacks s)) as [callback|] eqn:Hg.
  2: { rewrite (onMessage_unexpected _ _ _ _ _ Hs Hid Hnz Hg). apply quiet_refl. }
  rewrite (onMessage_reply _ _ _ _ _ _ Hs Hid Hnz Hg). split; simpl; [|done].
  rewrite sent_ids_app. unfold reply_settlement.
  destruct (msg_error object); simpl; by rewrite app_nil_r.
Qed.

Lemma quiet_onClose this w : quiet w (snd (CDPSession_onClose this w)).
Proof.
  destruct (heap w !! this) as [s|] eqn:Hs.
  2: { rewrite onClose_dangling by done. apply quiet_refl. }
  rewrite (onClose_eq _ _ _ Hs). split; simpl; [|done].
  rewrite !sent_ids_app, sent_ids_close_rejections. simpl.
  by rewrite app_nil_r.
Qed.

Lemma quiet_forEach_onClose refs w :
  quiet w (snd (forEach CDPSession_onClose refs w)).
Proof.
  revert w. induction refs as [|r refs IH]; intros w; simpl.
  { apply quiet_refl. }
  unfold bind. pose proof (quiet_onClose r w) as Hstep.
  destruct (CDPSession_onClose r w) as [[[]|e] w1]; simpl in *; [|done].
  eapply quiet_trans; [exact Hstep | apply IH].
Qed.

Lemma quiet_onTransportClose w : quiet w (snd (Connection_onTransportClose w)).
Proof.
  destruct (_closed (connection w)) eqn:Hc.
  { rewrite onTransportClose_closed by done. apply quiet_refl. }
  rewrite onTransportClose_open by done.
  match goal with |- context [forEach ?f ?l ?w0] =>
    pose proof (quiet_forEach_onClose l w0) as [Hs Hl];
    destruct (forEach f l w0) as [[[]|e] w']
  end; simpl in *; by split.
Qed.

Lemma ids_increasing_quiet w w' :
  quiet w w' -> ids_increasing w -> ids_increasing w'.
Proof. intros [Hs Hl] [Hsorted Hle]. split; by rewrite Hs, ?Hl. Qed.

Lemma ids_increasing_send method params sid w :
  ids_increasing w ->
  ids_increasing (snd (Connection_send method params sid w)).
Proof.
  intros [Hsorted Hle]. rewrite Connection_send_eq. split; simpl.
  - rewrite sent_ids_app. simpl.
    induction Hsorted as [|id ids Hs IH Hall]; simpl.
    + repeat constructor.
    + apply Forall_cons in Hle as [Hid Hle].
      constructor; [by apply IH|].
      apply Forall_app. split; [done|]. repeat constructor. lia.
  - rewrite sent_ids_app. simpl. apply Forall_app. split.
    + eapply Forall_impl; [exact Hle|]. simpl. intros. lia.
    + repeat constructor. lia.
Qed.

Lemma ids_increasing_new : ids_increasing new_Connection.
Proof. split; simpl; constructor. Qed.

Lemma ids_increasing_sendOrDie this method params w :
  ids_increasing w -> ids_increasing (snd (sendOrDie this method params w)).
Proof.
  intros Hinv. destruct (heap w !! this) as [s|] eqn:Hs.
  2: { by rewrite sendOrDie_dangling. }
  destruct (_connection s) as [c|] eqn:Hconn.
  - rewrite (sendOrDie_open_eq _ _ _ _ _ _ Hs Hconn).
    pose proof (ids_increasing_send method params (_sessionId s) w Hinv) as Hsend.
    rewrite Connection_send_eq in Hsend. exact Hsend.
  - rewrite (sendOrDie_closed_eq _ _ _ _ _ Hs Hconn).
    eapply ids_increasing_quiet; [|exact Hinv]. split; simpl; [|done].
    rewrite sent_ids_app. simpl. by rewrite app_nil_r.
Qed.

Lemma ids_increasing_exec op w : ids_increasing w -> ids_increasing (exec op w).
Proof.
  intros Hinv. destruct op as [id|s m ps|s m ps|s|s| |object| |s ev|s ev]; cbn [exec].
  - rewrite createSession_eq. by eapply ids_increasing_quiet; [|exact Hinv].
  - by apply ids_increasing_sendOrDie.
  - rewrite send_world. by apply ids_increasing_sendOrDie.
  - rewrite detach_eq. destruct (heap w !! s) as [s0|]; [|done].
    destruct (_connection s0); [|done]. by apply ids_increasing_send.
  - rewrite session_dispose_eq. destruct (heap w !! s) as [s0|] eqn:Hs; [|done].
    destruct (_connection s0); [|done].
    rewrite (disposeSession_eq _ _ _ Hs).
    pose proof (quiet_onClose s w) as Hq. rewrite (onClose_eq _ _ _ Hs) in Hq.
    eapply ids_increasing_quiet; [|exact Hinv]. exact Hq.
  - unfold Connection_dispose, bind.
    pose proof (quiet_onTransportClose w) as [Hs Hl].
    destruct (Connection_onTransportClose w) as [[[]|e] w']; simpl in *.
    + eapply ids_increasing_quiet; [|exact Hinv]. split; simpl; [|done].
      rewrite sent_ids_app. simpl. by rewrite app_nil_r.
    + by eapply ids_increasing_quiet; [|exact Hinv].
  - destruct (onmessage _); [|done]. rewrite Connection_onMessage_eq.
    destruct (JsMap.get _ _) as [s|]; [|done].
    eapply ids_increasing_quiet; [apply quiet_onMessage | done].
  - destruct (onclose _); [|done].
    eapply ids_increasing_quiet; [apply quiet_onTransportClose | done].
  - by eapply ids_increasing_quiet; [|exact Hinv].
  - by eapply ids_increasing_quiet; [|exact Hinv].
Qed.

Lemma ids_increasing_run ops w : ids_increasing w -> ids_increasing (run ops w).
Proof.
  revert w. induction ops as [|op ops IH]; intros w Hinv; simpl; [done|].
  by apply IH, ids_increasing_exec.
Qed.

Lemma settlement_pending p tr :
  settlement p tr = Pending <-> settle_calls p tr = 0%nat.
Proof.
  induction tr as [|e tr IH]; simpl; [done|].
  destruct e; try done; case_decide; try done; split; intros; done.
Qed.

Lemma StronglySorted_lt_NoDup (l : list Z) : StronglySorted Z.lt l -> NoDup l.
Proof.
  induction 1 as [|x l Hs IH Hall]; constructor; [|done].
  intros Hin. rewrite Forall_forall in Hall. specialize (Hall _ Hin). lia.
Qed.

(** * The claims *)

(** C2. A matching reply removes the pending entry and settles its
    promise: without an error it resolves with the result of the reply;
    with an error it rejects with the token captured at send time, whose
    message is built from the [method] field of the reply, not from the
    method of the command that was sent.  For [Debugger.enable], sent as
    command 1 and answered by an error reply without a [method] field,
    the message starts with [Protocol error (undefined)] and is not the
    one naming [Debugger.enable]. *)
Theorem C2_error_reply_names_reply_method :
  let boom := {| err_message := "boom"; err_data := JNull |} in
  let reply := {| msg_id := Some 1; msg_method := None; msg_params := None;
                  msg_result := None; msg_error := Some boom;
                  msg_sessionId := None |} in
  let w := run [call_sendOrDie 0 "Debugger.enable" None;
                transport_message reply] new_Connection in
  let serialized := JSON_stringify (error_to_json boom) in
  promise_state (trace w) (promise 0)
  = Rejected {| stack := at_sendOrDie_from 1;
                message := "Protocol error (undefined): boom - " +:+ serialized |}
  /\ "Protocol error (undefined): boom - " +:+ serialized
     <> "Protocol error (Debugger.enable): boom - " +:+ serialized
  /\ pending 0 w = 0%nat.
Proof.
  intros boom reply w serialized. split; [reflexivity|]. split; [|reflexivity].
  intros Heq. by simplify_eq.
Qed.

(** C4. The identifiers handed to the transport, in the order of the
    calls of [Connection._send], are strictly increasing, so none is
    issued twice: in every run of a connection, whatever else happens
    between the sends.  Each call of [_send] returns the identifier it
    puts on the wire, one more than the last. *)
Theorem C4_identifiers_strictly_increasing (ops : list Op) :
  let w := run ops new_Connection in
  StronglySorted Z.lt (sent_ids (trace w))
  /\ NoDup (sent_ids (trace w))
  /\ (forall method params sid,
        let r := Connection_send method params sid w in
        fst r = Normal (_lastId (connection w) + 1)
        /\ _lastId (connection (snd r)) = _lastId (connection w) + 1
        /\ sent_ids (trace (snd r))
           = sent_ids (trace w) ++ [_lastId (connection w) + 1]
        /\ Forall (fun id => id < _lastId (connection w) + 1) (sent_ids (trace w))).
Proof.
  intros w. destruct (ids_increasing_run ops _ ids_increasing_new) as [Hs Hle].
  fold w in Hs, Hle. split; [done|]. split; [by apply StronglySorted_lt_NoDup|].
  intros method params sid r. subst r. rewrite Connection_send_eq. simpl.
  split; [done|]. split; [done|]. split.
  - rewrite sent_ids_app. done.
  - eapply Forall_impl; [exact Hle|]. simpl. intros. lia.
Qed.

(** C5. On a session whose back-reference to the connection is
    cleared, [isClosed] answers true and [sendOrDie] returns a promise
    born rejected with the message [Protocol error (<method>): Session
    closed. Most likely the target has been closed.], for the method it
    was asked to send.  The connection is not touched (no identifier is
    issued, nothing reaches the transport) and no session object
    changes, so no pending entry is added. *)
Theorem C5_sendOrDie_on_closed_session
    (this : SessionRef) (s : CDPSession) (method : string)
    (params : option Json) (w : World) :
  heap w !! this = Some s ->
  _connection s = None ->
  isClosed this w = (Normal true, w)
  /\ exists w',
       sendOrDie this method params w = (Normal (promises w), w')
       /\ trace w'
          = trace w
            ++ [Reject (promises w)
                  {| stack := at_sendOrDie_closed;
                     message :=
                       "Protocol error (" +:+ method +:+
                       "): Session closed. Most likely the target has been closed." |}]
       /\ connection w' = connection w
       /\ heap w' = heap w
       /\ sent_ids (trace w') = sent_ids (trace w)
       /\ forall p, pending p w' = pending p w.
Proof.
  intros Hs Hclosed. split.
  - unfold isClosed, bind, deref. by rewrite Hs, Hclosed.
  - rewrite (sendOrDie_closed_eq _ _ _ _ _ Hs Hclosed).
    eexists. split; [done|]. simpl. repeat split.
    rewrite sent_ids_app. simpl. by rewrite app_nil_r.
Qed.

(** C6. Closing a session rejects every pending command, in the order
    of the map, with the token captured when it was sent and the message
    [Protocol error (<method>): Target closed.] for the method of that
    command, then emits the disconnected event, and nothing else.
    Afterwards the map of pending commands is empty and the
    back-reference to the connection is cleared, so [isClosed] answers
    true. *)
Theorem C6_onClose_rejects_all_pending
    (this : SessionRef) (s : CDPSession) (w : World) :
  heap w !! this = Some s ->
  exists w' s',
    CDPSession_onClose this w = (Normal tt, w')
    /\ trace w'
       = trace w
         ++ map (fun callback =>
                   Reject (cb_promise callback)
                     {| stack := stack (cb_from callback);
                        message := "Protocol error (" +:+ cb_method callback
                                   +:+ "): Target closed." |})
              (JsMap.values (_callbacks s))
         ++ [Emit this ev_Disconnected []]
    /\ heap w' !! this = Some s'
    /\ _callbacks s' = []
    /\ _connection s' = None
    /\ isClosed this w' = (Normal true, w').
Proof.
  intros Hs. rewrite (onClose_eq _ _ _ Hs).
  eexists. exists (closed_session s). split; [done|]. simpl.
  assert (Hlookup : <[this := closed_session s]> (heap w) !! this
                    = Some (closed_session s)).
  { apply list_lookup_insert_eq. by eapply lookup_lt_Some. }
  repeat split; try done.
  unfold isClosed, bind, deref. simpl. by rewrite Hlookup.
Qed.

(** C7. [send] runs [sendOrDie] and hands out its promise behind a
    handler that turns every rejection into [null].  Whatever happens
    afterwards, the promise of [send] is never rejected: it is fulfilled
    with [null] when the promise of [sendOrDie] is rejected, and
    fulfilled with the same value when that one is fulfilled. *)
Theorem C7_send_never_rejects
    (this : SessionRef) (s : CDPSession) (method : string)
    (params : option Json) (w : World) :
  heap w !! this = Some s ->
  exists p pr w',
    sendOrDie this method params w = (Normal p, w')
    /\ send this method params w = (Normal pr, w')
    /\ forall tr : list Effect,
         (forall e, promise_state tr pr <> Rejected e)
         /\ (forall e, promise_state tr (promise p) = Rejected e ->
              promise_state tr pr = Fulfilled VNull)
         /\ (forall v, promise_state tr (promise p) = Fulfilled v ->
              promise_state tr pr = Fulfilled v).
Proof.
  intros Hs.
  assert (Hok : exists p w', sendOrDie this method params w = (Normal p, w')).
  { destruct (_connection s) as [c|] eqn:Hconn.
    - rewrite (sendOrDie_open_eq _ _ _ _ _ _ Hs Hconn). by eexists _, _.
    - rewrite (sendOrDie_closed_eq _ _ _ _ _ Hs Hconn). by eexists _, _. }
  destruct Hok as (p & w' & Heq).
  exists p, (promise_catch (promise p) (fun _ => VNull)), w'.
  split; [done|]. split.
  { unfold send, bind. by rewrite Heq. }
  intros tr. simpl. destruct (settlement p tr); repeat split; congruence.
Qed.

(** C8. A message whose identifier is not zero and has no entry in the
    map of pending commands makes [CDPSession._onMessage] throw: nothing
    is emitted and nothing changes.  An identifier of zero counts as no
    identifier: the message is handled as an event, that is emitted, or
    refused by the emitter as an unhandled error when its method is
    [error] and the session has no listener for it. *)
Theorem C8_unexpected_reply_throws
    (this : SessionRef) (s : CDPSession) (object : ProtocolResponse) (w : World) :
  heap w !! this = Some s ->
  (forall id, msg_id object = Some id -> id <> 0 ->
     JsMap.get id (_callbacks s) = None ->
     CDPSession_onMessage this object w
     = (Throw {| stack := at_CDPSession_onMessage; message := EmptyString |}, w))
  /\ (msg_id object = Some 0 ->
      CDPSession_onMessage this object w
      = if unhandled_error this (ev_method (msg_method object)) (listeners w)
        then (Throw {| stack := at_EventEmitter_emit;
                       message := ERR_UNHANDLED_ERROR
                                    (value_of (msg_params object)) |}, w)
        else (Normal tt,
              add_trace [Emit this (ev_method (msg_method object))
                           [value_of (msg_params object)]] w)).
Proof.
  intros Hs. split.
  - intros id Hid Hnz Hg. by eapply onMessage_unexpected.
  - intros Hid. rewrite (onMessage_event _ s) by (by rewrite ?Hid).
    by rewrite emit_eq.
Qed.

(** C9. A message without identifier is handed to the emitter of the
    session under the name of its [method], with its [params] as the
    only argument.  The emitter delivers it to the listeners of that
    name, unless the name is [error] and the session has no listener for
    it: then the emitter throws an unhandled error and nothing is
    delivered.  In both cases the session objects, hence every map of
    pending commands, stay as they were, and no promise is settled. *)
Theorem C9_event_is_emitted
    (this : SessionRef) (s : CDPSession) (object : ProtocolResponse) (w : World) :
  heap w !! this = Some s ->
  msg_id object = None ->
  exists r w',
    CDPSession_onMessage this object w = (r, w')
    /\ heap w' = heap w
    /\ connection w' = connection w
    /\ promises w' = promises w
    /\ (forall p, pending p w' = pending p w)
    /\ (forall p, settle_calls p (trace w') = settle_calls p (trace w))
    /\ (msg_method object <> Some "error"%string
        \/ (this, ev_method (Some "error"%string)) ∈ listeners w ->
        r = Normal tt
        /\ trace w'
           = trace w ++ [Emit this (ev_method (msg_method object))
                           [value_of (msg_params object)]])
    /\ (msg_method object = Some "error"%string ->
        (this, ev_method (Some "error"%string)) ∉ listeners w ->
        r = Throw {| stack := at_EventEmitter_emit;
                     message := ERR_UNHANDLED_ERROR
                                  (value_of (msg_params object)) |}
        /\ w' = w).
Proof.
  intros Hs Hid. rewrite (onMessage_event _ s) by (by rewrite ?Hid).
  rewrite emit_eq.
  pose proof (unhandled_error_spec this (msg_method object) (listeners w)) as Hspec.
  destruct (unhandled_error _ _ _).
  - destruct Hspec as [Herr Hnone]. eexists _, _. split; [done|].
    do 5 (split; [done|]). split.
    + intros [Hne|Hin]; [congruence | done].
    + done.
  - eexists _, _. split; [done|]. simpl. do 4 (split; [done|]). split.
    { intros p. rewrite settle_calls_app. simpl. lia. }
    split; [done|]. intros Herr Hnone. destruct Hspec as [Hne|Hin]; done.
Qed.

(** C10. [createSession] with an identifier that is already registered
    registers the new session in place of the old one and leaves the old
    session object as it was: its pending commands stay, nothing is
    rejected, its back-reference stays, so it still answers that it is
    not closed, and [session] now answers the new object. *)
Theorem C10_duplicate_id_replaces_session
    (id : string) (old : SessionRef) (s : CDPSession) (w : World) :
  JsMap.get id (_sessions (connection w)) = Some old ->
  heap w !! old = Some s ->
  _connection s = Some this_connection ->
  exists new w',
    createSession id w = (Normal new, w')
    /\ new <> old
    /\ session id w' = (Normal (Some new), w')
    /\ heap w' !! old = Some s
    /\ isClosed old w' = (Normal false, w')
    /\ trace w' = trace w
    /\ (forall p, pending p w' = pending p w).
Proof.
  intros Hget Hs Hopen. rewrite createSession_eq.
  eexists _, _. split; [done|].
  assert (Hlt : (old < length (heap w))%nat) by (by eapply lookup_lt_Some).
  assert (Hkeep : (heap w ++ [new_session id]) !! old = Some s).
  { by rewrite lookup_app_l. }
  split; [lia|]. split.
  { unfold session, bind, get_connection, ret. simpl. by rewrite get_set_eq. }
  split; [done|]. split.
  { unfold isClosed, bind, deref. simpl. by rewrite Hkeep, Hopen. }
  split; [done|].
  intros p. unfold pending. simpl. rewrite sum_snoc.
  change (awaiting p (new_session id)) with O. lia.
Qed.

(** * Further properties of the two classes *)

(** ** Closing the connection *)

Lemma onClose_connection this w :
  connection (snd (CDPSession_onClose this w)) = connection w.
Proof.
  destruct (heap w !! this) as [s|] eqn:Hs.
  - by rewrite (onClose_eq _ _ _ Hs).
  - by rewrite onClose_dangling.
Qed.

Lemma forEach_onClose_connection refs w :
  connection (snd (forEach CDPSession_onClose refs w)) = connection w.
Proof.
  revert w. induction refs as [|r refs IH]; intros w; simpl; [done|].
  unfold bind. pose proof (onClose_connection r w) as Hstep.
  destruct (CDPSession_onClose r w) as [[[]|e] w1]; simpl in *; [|done].
  by rewrite IH.
Qed.

Lemma onTransportClose_marks_closed w :
  _closed (connection (snd (Connection_onTransportClose w))) = true.
Proof.
  destruct (_closed (connection w)) eqn:Hc.
  { by rewrite onTransportClose_closed. }
  rewrite onTransportClose_open by done.
  match goal with |- context [forEach ?f ?l ?w0] =>
    pose proof (forEach_onClose_connection l w0) as Hconn;
    destruct (forEach f l w0) as [[[]|e] w']
  end; simpl in *; by rewrite Hconn.
Qed.

(** X1. Closing is idempotent: whatever the state, once
    [_onTransportClose] has run the connection is marked closed, a
    second run changes nothing, and [dispose] then only closes the
    transport once more. *)
Theorem X1_onTransportClose_idempotent (w : World) :
  let w1 := snd (Connection_onTransportClose w) in
  _closed (connection w1) = true
  /\ Connection_onTransportClose w1 = (Normal tt, w1)
  /\ Connection_dispose w1 = (Normal tt, add_trace [TransportClose] w1).
Proof.
  intros w1. pose proof (onTransportClose_marks_closed w) as Hc. fold w1 in Hc.
  split; [done|]. split.
  - by apply onTransportClose_closed.
  - unfold Connection_dispose, bind. by rewrite onTransportClose_closed.
Qed.

(** ** The registry only holds open sessions under their own identifier *)

Lemma elem_of_set {K V} `{EqDecision K} (k k' : K) (v v' : V) (m : JsMap.t K V) :
  (k', v') ∈ JsMap.set k v m -> (k', v') = (k, v) \/ (k', v') ∈ m.
Proof.
  induction m as [|[k2 v2] m IH]; simpl.
  - intros Hin. apply list_elem_of_singleton in Hin. by left.
  - case_decide; rewrite !elem_of_cons; intuition.
Qed.

Lemma elem_of_delete {K V} `{EqDecision K} (k k' : K) (v' : V) (m : JsMap.t K V) :
  (k', v') ∈ JsMap.delete k m -> k' <> k /\ (k', v') ∈ m.
Proof.
  induction m as [|[k2 v2] m IH]; simpl.
  - by intros ?%elem_of_nil.
  - case_decide as Hk; rewrite !elem_of_cons.
    + intros Hin. destruct (IH Hin). auto.
    + intros [Heq|Hin].
      * injection Heq as -> ->. split; [congruence | by left].
      * destruct (IH Hin). auto.
Qed.

Lemma elem_of_values {K V} (v : V) (m : JsMap.t K V) :
  v ∈ JsMap.values m -> exists k, (k, v) ∈ m.
Proof.
  unfold JsMap.values. intros ([k v'] & -> & Hin)%list_elem_of_fmap.
  by exists k.
Qed.

Lemma registry_sound_new : registry_sound new_Connection.
Proof.
  intros id ref Hin. simpl in Hin. apply list_elem_of_singleton in Hin.
  injection Hin as -> ->. by eexists.
Qed.

Lemma registry_sound_valid w ref :
  registry_sound w -> ref ∈ JsMap.values (_sessions (connection w)) ->
  (ref < length (heap w))%nat.
Proof.
  intros Hsound [id Hin]%elem_of_values.
  destruct (Hsound _ _ Hin) as (s & Hs & _). by eapply lookup_lt_Some.
Qed.

Lemma registry_sound_frame w w' :
  heap w' = heap w -> _sessions (connection w') = _sessions (connection w) ->
  registry_sound w -> registry_sound w'.
Proof. intros Hh Hs Hsound id ref. rewrite Hh, Hs. apply Hsound. Qed.

(** One object replaced by one with the same identifier and connection. *)
Lemma registry_sound_update this s s' w w' :
  heap w !! this = Some s ->
  heap w' = <[this := s']> (heap w) ->
  _sessions (connection w') = _sessions (connection w) ->
  _sessionId s' = _sessionId s -> _connection s' = _connection s ->
  registry_sound w -> registry_sound w'.
Proof.
  intros Hs Hh Hsess Hid Hconn Hsound id ref. rewrite Hh, Hsess. intros Hin.
  destruct (Hsound _ _ Hin) as (s0 & Hs0 & Hid0 & Hc0).
  destruct (decide (ref = this)) as [->|Hne].
  - exists s'. rewrite list_lookup_insert_eq by (by eapply lookup_lt_Some).
    rewrite Hs in Hs0. injection Hs0 as <-. by rewrite Hid, Hconn.
  - exists s0. by rewrite list_lookup_insert_ne.
Qed.

Lemma registry_sound_sendOrDie this method params w :
  registry_sound w -> registry_sound (snd (sendOrDie this method params w)).
Proof.
  intros Hinv. destruct (heap w !! this) as [s|] eqn:Hs.
  2: { by rewrite sendOrDie_dangling. }
  destruct (_connection s) as [c|] eqn:Hconn.
  - rewrite (sendOrDie_open_eq _ _ _ _ _ _ Hs Hconn). simpl.
    by eapply (registry_sound_update this s); [exact Hs | ..].
  - rewrite (sendOrDie_closed_eq _ _ _ _ _ Hs Hconn).
    by apply (registry_sound_frame w).
Qed.

Lemma registry_sound_onMessage this object w :
  registry_sound w -> registry_sound (snd (CDPSession_onMessage this object w)).
Proof.
  intros Hinv. destruct (heap w !! this) as [s|] eqn:Hs.
  2: { by rewrite onMessage_dangling. }
  destruct (truthy_number (msg_id object)) eqn:Htruthy.
  2: { destruct (onMessage_event_world _ _ _ _ Hs Htruthy) as [-> | ->]; [done|].
       by apply (registry_sound_frame w). }
  apply truthy_number_true in Htruthy as (id & Hid & Hnz).
  destruct (JsMap.get id (_callbacks s)) as [callback|] eqn:Hg.
  2: { by rewrite (onMessage_unexpected _ _ _ _ _ Hs Hid Hnz Hg). }
  rewrite (onMessage_reply _ _ _ _ _ _ Hs Hid Hnz Hg). simpl.
  by eapply (registry_sound_update this s); [exact Hs | ..].
Qed.

(** The first close of a connection whose registry is sound. *)
Lemma onTransportClose_sound w :
  registry_sound w -> _closed (connection w) = false ->
  exists w',
    Connection_onTransportClose w = (Normal tt, w')
    /\ connection w'
       = set_sessions []
           (set_transport {| onmessage := false; onclose := false |}
              (set_closed true (connection w)))
    /\ promises w' = promises w
    /\ length (heap w') = length (heap w)
    /\ forall ref s, heap w !! ref = Some s ->
         heap w' !! ref
         = Some (if decide (ref ∈ JsMap.values (_sessions (connection w)))
                 then closed_session s else s).
Proof.
  intros Hsound Hopen. rewrite onTransportClose_open by done.
  match goal with |- context [forEach _ ?l ?w0] =>
    destruct (forEach_onClose_eq l w0) as (w' & Hrun & Hconn & Hprom & Hlen & Hheap)
  end.
  { intros ref Hin. by apply registry_sound_valid. }
  rewrite Hrun. eexists. split; [done|]. simpl in *.
  rewrite Hconn. by repeat split.
Qed.

Lemma registry_sound_onTransportClose w :
  registry_sound w -> registry_sound (snd (Connection_onTransportClose w)).
Proof.
  intros Hinv. destruct (_closed (connection w)) eqn:Hc.
  { by rewrite onTransportClose_closed. }
  destruct (onTransportClose_sound w Hinv Hc) as (w' & -> & Hconn & _).
  simpl. intros id ref. rewrite Hconn. simpl. by intros ?%elem_of_nil.
Qed.

Lemma registry_sound_exec op w : registry_sound w -> registry_sound (exec op w).
Proof.
  intros Hinv. destruct op as [id|s m ps|s m ps|s|s| |object| |s ev|s ev]; cbn [exec].
  - rewrite createSession_eq. simpl. intros id' ref Hin. simpl in Hin.
    apply elem_of_set in Hin as [Heq|Hin].
    + injection Heq as -> ->. exists (new_session id).
      split; [|done]. by apply list_lookup_middle.
    + destruct (Hinv _ _ Hin) as (s & Hs & Hid & Hc). exists s.
      split; [|done]. simpl. rewrite lookup_app_l; [done|].
      by eapply lookup_lt_Some.
  - by apply registry_sound_sendOrDie.
  - rewrite send_world. by apply registry_sound_sendOrDie.
  - rewrite detach_eq. destruct (heap w !! s) as [s0|]; [|done].
    destruct (_connection s0); [|done]. by apply (registry_sound_frame w).
  - rewrite session_dispose_eq. destruct (heap w !! s) as [s0|] eqn:Hs; [|done].
    destruct (_connection s0) as [c|] eqn:Hconn; [|done].
    rewrite (disposeSession_eq _ _ _ Hs). simpl.
    intros id ref Hin. simpl in Hin. apply elem_of_delete in Hin as [Hne Hin].
    destruct (Hinv _ _ Hin) as (s1 & Hs1 & Hid & Hc). exists s1.
    split; [|done]. simpl. rewrite list_lookup_insert_ne; [done|].
    intros <-. rewrite Hs in Hs1. injection Hs1 as <-. done.
  - unfold Connection_dispose, bind.
    pose proof (registry_sound_onTransportClose w Hinv) as Hclose.
    destruct (Connection_onTransportClose w) as [[[]|e] w']; simpl in *; [|done].
    by apply (registry_sound_frame w').
  - destruct (onmessage _); [|done]. rewrite Connection_onMessage_eq.
    destruct (JsMap.get _ _) as [s|]; [|done].
    by apply registry_sound_onMessage.
  - destruct (onclose _); [|done]. by apply registry_sound_onTransportClose.
  - by apply (registry_sound_frame w).
  - by apply (registry_sound_frame w).
Qed.

Lemma registry_sound_run ops w : registry_sound w -> registry_sound (run ops w).
Proof.
  revert w. induction ops as [|op ops IH]; intros w Hinv; simpl; [done|].
  by apply IH, registry_sound_exec.
Qed.

Lemma session_eq id w :
  session id w = (Normal (JsMap.get id (_sessions (connection w))), w).
Proof. reflexivity. Qed.

Lemma isClosed_eq this s w :
  heap w !! this = Some s ->
  isClosed this w
  = (Normal (match _connection s with Some _ => false | None => true end), w).
Proof. intros Hs. unfold isClosed, bind, deref. by rewrite Hs. Qed.

Lemma sessionId_eq this s w :
  heap w !! this = Some s -> sessionId this w = (Normal (_sessionId s), w).
Proof. intros Hs. unfold sessionId, bind, deref. by rewrite Hs. Qed.

(** X4. In every run, a session that [session(id)] answers exists, is
    open and carries the identifier [id]; a message for [id] is handled
    by that session. *)
Theorem X4_session_lookup_is_sound (ops : list Op) (id : string) (ref : SessionRef) :
  let w := run ops new_Connection in
  session id w = (Normal (Some ref), w) ->
  sessionId ref w = (Normal id, w)
  /\ isClosed ref w = (Normal false, w)
  /\ forall object, or_empty (msg_sessionId object) = id ->
       Connection_onMessage object w = CDPSession_onMessage ref object w.
Proof.
  intros w Hlookup. rewrite session_eq in Hlookup.
  assert (Hget : JsMap.get id (_sessions (connection w)) = Some ref) by congruence.
  pose proof (registry_sound_run ops _ registry_sound_new) as Hsound.
  destruct (Hsound _ _ (get_Some_elem _ _ _ Hget)) as (s & Hs & Hid & Hopen).
  fold w in Hs. split; [|split].
  - rewrite (sessionId_eq _ _ _ Hs). by rewrite Hid.
  - rewrite (isClosed_eq _ _ _ Hs). by rewrite Hopen.
  - intros object Hkey. rewrite Connection_onMessage_eq, Hkey. by rewrite Hget.
Qed.

(** X2. The first close of a connection, in any run: the sessions that
    were registered are closed, the registry is empty, so that
    [session] finds nothing and every later message is refused as
    coming from an unknown session, and both handlers of the transport
    are removed. *)
Theorem X2_first_close_empties_registry (ops : list Op) :
  let w := run ops new_Connection in
  _closed (connection w) = false ->
  exists w',
    Connection_onTransportClose w = (Normal tt, w')
    /\ _transport (connection w') = {| onmessage := false; onclose := false |}
    /\ _lastId (connection w') = _lastId (connection w)
    /\ (forall id, session id w' = (Normal None, w'))
    /\ (forall id ref, session id w = (Normal (Some ref), w) ->
          isClosed ref w' = (Normal true, w'))
    /\ (forall object,
          Connection_onMessage object w'
          = (Throw {| stack := at_Connection_onMessage;
                      message := "Unknown session id: "
                                 +:+ template (msg_sessionId object) |}, w')).
Proof.
  intros w Hopen.
  pose proof (registry_sound_run ops _ registry_sound_new) as Hsound.
  destruct (onTransportClose_sound _ Hsound Hopen)
    as (w' & Heq & Hconn & _ & _ & Hheap).
  fold w in Heq, Hconn, Hheap.
  exists w'. split; [done|]. rewrite Hconn. simpl.
  split; [done|]. split; [done|]. split.
  { intros id. rewrite session_eq, Hconn. done. }
  split.
  - intros id ref Hlookup. rewrite session_eq in Hlookup.
    assert (Hget : JsMap.get id (_sessions (connection w)) = Some ref) by congruence.
    destruct (Hsound _ _ (get_Some_elem _ _ _ Hget)) as (s & Hs & _).
    fold w in Hs. specialize (Hheap _ _ Hs).
    rewrite decide_True in Hheap by (by eapply get_Some_values).
    by rewrite (isClosed_eq _ _ _ Hheap).
  - intros object. rewrite Connection_onMessage_eq, Hconn. done.
Qed.

(** X3. Closing the connection only reaches the sessions of the
    registry: a session object that is not registered, such as one whose
    identifier was given to a newer session, is left as it was, and the
    commands pending on it are not settled by the close. *)
Theorem X3_close_skips_unregistered (ops : list Op) (ref : SessionRef) :
  let w := run ops new_Connection in
  let w' := snd (Connection_onTransportClose w) in
  _closed (connection w) = false ->
  ref ∉ JsMap.values (_sessions (connection w)) ->
  heap w' !! ref = heap w !! ref
  /\ forall s p, heap w !! ref = Some s -> (0 < awaiting p s)%nat ->
       settle_calls p (trace w') = 0%nat.
Proof.
  intros w w' Hopen Hnot.
  pose proof (registry_sound_run ops _ registry_sound_new) as Hsound.
  destruct (onTransportClose_sound _ Hsound Hopen)
    as (w1 & Heq & _ & Hprom & Hlen & Hheap).
  fold w in Heq, Hprom, Hlen, Hheap.
  assert (Hsame : heap w' !! ref = heap w !! ref).
  { subst w'. rewrite Heq. simpl.
    destruct (heap w !! ref) as [s|] eqn:Hs.
    - rewrite (Hheap _ _ Hs). by rewrite decide_False.
    - apply lookup_ge_None. rewrite Hlen. by apply lookup_ge_None. }
  split; [done|].
  intros s p Hs Hawait.
  pose proof (settled_once_run ops _ settled_once_new) as Hinv.
  apply settled_once_onTransportClose in Hinv. fold w w' in Hinv.
  pose proof (once_count _ Hinv p) as Hcount.
  rewrite <- Hsame in Hs.
  assert (Hle : (awaiting p s <= pending p w')%nat).
  { unfold pending. apply sum_list_with_in. by eapply list_elem_of_lookup_2. }
  case_decide; lia.
Qed.

(** ** Disposing one session *)

Lemma detach_closed_eq this s w :
  heap w !! this = Some s -> _connection s = None ->
  detach this w
  = (Throw {| stack := at_detach;
              message := "Session already detached. Most likely the target has been closed." |},
     w).
Proof. intros Hs Hc. rewrite detach_eq, Hs, Hc. done. Qed.

(** X5. Disposing an open session rejects its pending commands, emits
    the disconnected event and removes its identifier from the
    registry.  Afterwards the session is closed for good: disposing it
    again does nothing, [detach] throws and [sendOrDie] answers a
    promise that is already rejected. *)
Theorem X5_session_dispose
    (this : SessionRef) (s : CDPSession) (method : string)
    (params : option Json) (w : World) :
  heap w !! this = Some s ->
  _connection s = Some this_connection ->
  exists w1,
    CDPSession_dispose this w = (Normal tt, w1)
    /\ trace w1
       = trace w ++ map close_rejection (JsMap.values (_callbacks s))
                 ++ [Emit this ev_Disconnected []]
    /\ session (_sessionId s) w1 = (Normal None, w1)
    /\ isClosed this w1 = (Normal true, w1)
    /\ CDPSession_dispose this w1 = (Normal tt, w1)
    /\ detach this w1
       = (Throw {| stack := at_detach;
                   message := "Session already detached. Most likely the target has been closed." |},
          w1)
    /\ fst (sendOrDie this method params w1) = Normal (promises w1)
    /\ trace (snd (sendOrDie this method params w1))
       = trace w1
         ++ [Reject (promises w1)
               {| stack := at_sendOrDie_closed;
                  message := "Protocol error (" +:+ method +:+
                    "): Session closed. Most likely the target has been closed." |}].
Proof.
  intros Hs Hopen. rewrite session_dispose_eq, Hs, Hopen.
  rewrite (disposeSession_eq _ _ _ Hs). eexists. split; [done|].
  set (w1 := {| connection := _ |}).
  assert (Hs1 : heap w1 !! this = Some (closed_session s)).
  { simpl. apply list_lookup_insert_eq. by eapply lookup_lt_Some. }
  split; [done|]. split.
  { rewrite session_eq. simpl. by rewrite get_delete_eq. }
  split.
  { by rewrite (isClosed_eq _ _ _ Hs1). }
  split.
  { by rewrite session_dispose_eq, Hs1. }
  split.
  { by apply (detach_closed_eq _ _ _ Hs1). }
  by rewrite (sendOrDie_closed_eq _ (closed_session s)).
Qed.

(** X6. Once a session is disposed, a message that carries its
    identifier is refused as coming from an unknown session.  This
    includes the root session: after it is disposed, a message without
    session identifier is refused too. *)
Theorem X6_message_after_dispose
    (this : SessionRef) (s : CDPSession) (object : ProtocolResponse) (w : World) :
  heap w !! this = Some s ->
  _connection s = Some this_connection ->
  or_empty (msg_sessionId object) = _sessionId s ->
  let w1 := snd (CDPSession_dispose this w) in
  Connection_onMessage object w1
  = (Throw {| stack := at_Connection_onMessage;
              message := "Unknown session id: "
                         +:+ template (msg_sessionId object) |}, w1).
Proof.
  intros Hs Hopen Hkey. rewrite session_dispose_eq, Hs, Hopen.
  rewrite (disposeSession_eq _ _ _ Hs). simpl.
  rewrite Connection_onMessage_eq. simpl. by rewrite Hkey, get_delete_eq.
Qed.

(** X7. [_disposeSession] removes the registry entry of the identifier,
    whichever object it names.  Disposing a session whose identifier has
    meanwhile been registered for a newer session unregisters the newer
    one, which stays as it was and is no longer found. *)
Theorem X7_dispose_of_replaced_session
    (old new : SessionRef) (s_old s_new : CDPSession) (w : World) :
  heap w !! old = Some s_old ->
  _connection s_old = Some this_connection ->
  heap w !! new = Some s_new ->
  new <> old ->
  session (_sessionId s_old) w = (Normal (Some new), w) ->
  let w1 := snd (CDPSession_dispose old w) in
  session (_sessionId s_old) w1 = (Normal None, w1)
  /\ heap w1 !! new = Some s_new
  /\ fst (isClosed new w1) = fst (isClosed new w).
Proof.
  intros Hold Hopen Hnew Hne _. rewrite session_dispose_eq, Hold, Hopen.
  rewrite (disposeSession_eq _ _ _ Hold). simpl.
  set (w1 := {| connection := _ |}).
  assert (Hnew1 : heap w1 !! new = Some s_new).
  { simpl. by rewrite list_lookup_insert_ne. }
  split.
  { rewrite session_eq. simpl. by rewrite get_delete_eq. }
  split; [done|].
  by rewrite (isClosed_eq _ _ _ Hnew1), (isClosed_eq _ _ _ Hnew).
Qed.

(** ** Identifiers count the commands sent *)

(** One operation sends nothing, or exactly one command. *)
Lemma exec_sends op w :
  quiet w (exec op w)
  \/ (_lastId (connection (exec op w)) = _lastId (connection w) + 1
      /\ sent_ids (trace (exec op w))
         = sent_ids (trace w) ++ [_lastId (connection w) + 1]).
Proof.
  destruct op as [id|s m ps|s m ps|s|s| |object| |s ev|s ev]; cbn [exec];
    rewrite ?send_world.
  - left. rewrite createSession_eq. by split.
  - destruct (heap w !! s) as [s0|] eqn:Hs.
    2: { left. rewrite sendOrDie_dangling by done. apply quiet_refl. }
    destruct (_connection s0) as [c|] eqn:Hconn.
    + right. rewrite (sendOrDie_open_eq _ _ _ _ _ _ Hs Hconn). simpl.
      by rewrite sent_ids_app.
    + left. rewrite (sendOrDie_closed_eq _ _ _ _ _ Hs Hconn). split; simpl; [|done].
      rewrite sent_ids_app. simpl. by rewrite app_nil_r.
  - destruct (heap w !! s) as [s0|] eqn:Hs.
    2: { left. rewrite sendOrDie_dangling by done. apply quiet_refl. }
    destruct (_connection s0) as [c|] eqn:Hconn.
    + right. rewrite (sendOrDie_open_eq _ _ _ _ _ _ Hs Hconn). simpl.
      by rewrite sent_ids_app.
    + left. rewrite (sendOrDie_closed_eq _ _ _ _ _ Hs Hconn). split; simpl; [|done].
      rewrite sent_ids_app. simpl. by rewrite app_nil_r.
  - rewrite detach_eq. destruct (heap w !! s) as [s0|]; [|left; apply quiet_refl].
    destruct (_connection s0); [|left; apply quiet_refl].
    right. rewrite Connection_send_eq. simpl. by rewrite sent_ids_app.
  - left. rewrite session_dispose_eq.
    destruct (heap w !! s) as [s0|] eqn:Hs; [|apply quiet_refl].
    destruct (_connection s0); [|apply quiet_refl].
    rewrite (disposeSession_eq _ _ _ Hs).
    pose proof (quiet_onClose s w) as Hq. by rewrite (onClose_eq _ _ _ Hs) in Hq.
  - left. unfold Connection_dispose, bind.
    pose proof (quiet_onTransportClose w) as [Hs Hl].
    destruct (Connection_onTransportClose w) as [[[]|e] w']; simpl in *.
    + split; simpl; [|done]. rewrite sent_ids_app. simpl. by rewrite app_nil_r.
    + by split.
  - left. destruct (onmessage _); [|apply quiet_refl].
    rewrite Connection_onMessage_eq.
    destruct (JsMap.get _ _) as [s|]; [|apply quiet_refl].
    apply quiet_onMessage.
  - left. destruct (onclose _); [|apply quiet_refl].
    apply quiet_onTransportClose.
  - left. by split.
  - left. by split.
Qed.

Lemma ids_consecutive_run ops w : ids_consecutive w -> ids_consecutive (run ops w).
Proof.
  revert w. induction ops as [|op ops IH]; intros w Hinv; simpl; [done|].
  apply IH. destruct Hinv as [Hpos Hids].
  destruct (exec_sends op w) as [[Hs Hl]|[Hl Hs]]; split.
  - by rewrite Hl.
  - by rewrite Hs, Hl.
  - lia.
  - rewrite Hs, Hl, Hids.
    rewrite (seqZ_app 1 (_lastId (connection w)) 1) by lia.
    f_equal. rewrite seqZ_cons by lia. rewrite seqZ_nil by lia.
    f_equal. lia.
Qed.

Lemma ids_consecutive_new : ids_consecutive new_Connection.
Proof. by split. Qed.

(** X12. In every run the identifiers handed to the transport are
    exactly 1, 2, ..., [_lastId], in this order: the first command is
    numbered 1, no number is skipped, and [_lastId] counts the commands
    sent so far. *)
Theorem X12_identifiers_count_from_one (ops : list Op) :
  let w := run ops new_Connection in
  sent_ids (trace w) = seqZ 1 (_lastId (connection w))
  /\ _lastId (connection w) = Z.of_nat (length (sent_ids (trace w))).
Proof.
  intros w. destruct (ids_consecutive_run ops _ ids_consecutive_new) as [Hpos Hids].
  fold w in Hpos, Hids. split; [done|].
  rewrite Hids, length_seqZ. lia.
Qed.

(** ** Commands and their replies *)


Lemma settlement_app p t1 t2 :
  settlement p (t1 ++ t2)
  = match settlement p t1 with
    | Pending => settlement p t2
    | st => st
    end.
Proof.
  induction t1 as [|e t1 IH]; simpl; [done|].
  destruct e; try done; by case_decide.
Qed.

(** In a run, the promise and the identifier that come next are new. *)
Lemma next_is_fresh ops :
  let w := run ops new_Connection in
  settlement (promises w) (trace w) = Pending
  /\ _lastId (connection w) + 1 <> 0
  /\ forall ref s, heap w !! ref = Some s ->
       _lastId (connection w) + 1 ∉ JsMap.keys (_callbacks s).
Proof.
  intros w.
  pose proof (settled_once_run ops _ settled_once_new) as [Hc _ Hi].
  destruct (ids_consecutive_run ops _ ids_consecutive_new) as [Hpos _].
  fold w in Hc, Hi, Hpos. split; [|split].
  - apply settlement_pending. specialize (Hc (promises w)).
    rewrite decide_False in Hc by lia. lia.
  - lia.
  - intros ref s Hs Hin. specialize (Hi _ _ _ Hs Hin). lia.
Qed.

(** X8. [detach] on an open session sends [Target.detachFromTarget]
    under a new identifier and the tag of the session, and nothing more:
    no pending command is recorded, the session stays open and
    registered.  As no command is pending for that identifier, the reply
    to it makes the session's message handling throw. *)
Theorem X8_detach_records_nothing
    (ops : list Op) (this : SessionRef) (s : CDPSession)
    (object : ProtocolResponse) :
  let w := run ops new_Connection in
  let id := _lastId (connection w) + 1 in
  let message :=
    {| cmd_id := id; cmd_method := "Target.detachFromTarget";
       cmd_params := JObject [];
       cmd_sessionId :=
         if truthy_string (_sessionId s) then Some (_sessionId s) else None |} in
  heap w !! this = Some s ->
  _connection s = Some this_connection ->
  exists w1,
    detach this w = (Normal tt, w1)
    /\ trace w1
       = trace w ++ [TransportSend message (JSON_stringify (command_to_json message))]
    /\ heap w1 = heap w
    /\ _sessions (connection w1) = _sessions (connection w)
    /\ promises w1 = promises w
    /\ (msg_id object = Some id ->
        CDPSession_onMessage this object w1
        = (Throw {| stack := at_CDPSession_onMessage; message := EmptyString |},
           w1)).
Proof.
  intros w id message Hs Hopen.
  destruct (next_is_fresh ops) as (_ & Hnz & Hfresh). fold w in Hnz, Hfresh.
  rewrite detach_eq, Hs, Hopen, Connection_send_eq. simpl.
  eexists. split; [done|]. simpl. do 4 (split; [done|]).
  intros Hid. eapply onMessage_unexpected; [exact Hs | exact Hid | exact Hnz |].
  apply get_None_keys. by eapply Hfresh.
Qed.


(** ** Properties of the session objects kept by every operation

    The session objects change in five ways only: an identifier is
    issued, a command is recorded under the identifier just issued, a
    reply removes an entry, a session is closed, a new session is
    created.  A property kept by these five is kept by every run. *)

Section heap_invariant.

Variable I : Z -> list CDPSession -> Prop.

Hypothesis I_issue : forall l h, I l h -> I (l + 1) h.

Hypothesis I_send : forall l h this s p method,
  I l h -> h !! this = Some s -> _connection s = Some this_connection ->
  I (l + 1)
    (<[this := set_callbacks
                 (JsMap.set (l + 1)
                    {| cb_promise := p;
                       cb_from := new_Error (at_sendOrDie_from (l + 1)) EmptyString;
                       cb_method := method |} (_callbacks s)) s]> h).

Hypothesis I_reply : forall l h this s k callback,
  I l h -> h !! this = Some s -> JsMap.get k (_callbacks s) = Some callback ->
  I l (<[this := set_callbacks (JsMap.delete k (_callbacks s)) s]> h).

Hypothesis I_close : forall l h this s,
  I l h -> h !! this = Some s -> I l (<[this := closed_session s]> h).

Hypothesis I_new : forall l h id, I l h -> I l (h ++ [new_session id]).

Lemma holds_sendOrDie this method params w :
  holds I w -> holds I (snd (sendOrDie this method params w)).
Proof.
  unfold holds. intros Hinv. destruct (heap w !! this) as [s|] eqn:Hs.
  2: { by rewrite sendOrDie_dangling. }
  destruct (_connection s) as [[]|] eqn:Hconn.
  - rewrite (sendOrDie_open_eq _ _ _ _ _ _ Hs Hconn). simpl. by apply I_send.
  - by rewrite (sendOrDie_closed_eq _ _ _ _ _ Hs Hconn).
Qed.

Lemma holds_onMessage this object w :
  holds I w -> holds I (snd (CDPSession_onMessage this object w)).
Proof.
  unfold holds. intros Hinv. destruct (heap w !! this) as [s|] eqn:Hs.
  2: { by rewrite onMessage_dangling. }
  destruct (truthy_number (msg_id object)) eqn:Htruthy.
  2: { by destruct (onMessage_event_world _ _ _ _ Hs Htruthy) as [-> | ->]. }
  apply truthy_number_true in Htruthy as (id & Hid & Hnz).
  destruct (JsMap.get id (_callbacks s)) as [callback|] eqn:Hg.
  2: { by rewrite (onMessage_unexpected _ _ _ _ _ Hs Hid Hnz Hg). }
  rewrite (onMessage_reply _ _ _ _ _ _ Hs Hid Hnz Hg). simpl.
  by eapply I_reply.
Qed.

Lemma holds_onClose this w :
  holds I w -> holds I (snd (CDPSession_onClose this w)).
Proof.
  unfold holds. intros Hinv. destruct (heap w !! this) as [s|] eqn:Hs.
  2: { by rewrite onClose_dangling. }
  rewrite (onClose_eq _ _ _ Hs). simpl. by apply I_close.
Qed.

Lemma holds_forEach_onClose refs w :
  holds I w -> holds I (snd (forEach CDPSession_onClose refs w)).
Proof.
  revert w. induction refs as [|r refs IH]; intros w Hinv; simpl; [done|].
  unfold bind. pose proof (holds_onClose r w Hinv) as Hstep.
  destruct (CDPSession_onClose r w) as [[[]|e] w1]; simpl in *; auto.
Qed.

Lemma holds_onTransportClose w :
  holds I w -> holds I (snd (Connection_onTransportClose w)).
Proof.
  intros Hinv. destruct (_closed (connection w)) eqn:Hc.
  { by rewrite onTransportClose_closed. }
  rewrite onTransportClose_open by done.
  match goal with |- context [forEach ?f ?l ?w0] =>
    pose proof (holds_forEach_onClose l w0 Hinv) as Hloop;
    pose proof (forEach_onClose_connection l w0) as Hconn;
    destruct (forEach f l w0) as [[[]|e] w']
  end; simpl in *; done.
Qed.

Lemma holds_exec op w : holds I w -> holds I (exec op w).
Proof.
  intros Hinv. destruct op as [id|s m ps|s m ps|s|s| |object| |s ev|s ev]; cbn [exec].
  - rewrite createSession_eq. by apply I_new.
  - by apply holds_sendOrDie.
  - rewrite send_world. by apply holds_sendOrDie.
  - rewrite detach_eq. destruct (heap w !! s) as [s0|]; [|done].
    destruct (_connection s0); [|done]. by apply I_issue.
  - rewrite session_dispose_eq. destruct (heap w !! s) as [s0|] eqn:Hs; [|done].
    destruct (_connection s0); [|done].
    rewrite (disposeSession_eq _ _ _ Hs). by apply I_close.
  - unfold Connection_dispose, bind.
    pose proof (holds_onTransportClose w Hinv) as Hclose.
    by destruct (Connection_onTransportClose w) as [[[]|e] w'].
  - destruct (onmessage _); [|done]. rewrite Connection_onMessage_eq.
    destruct (JsMap.get _ _) as [s|]; [|done].
    by apply holds_onMessage.
  - destruct (onclose _); [|done]. by apply holds_onTransportClose.
  - exact Hinv.
  - exact Hinv.
Qed.

Lemma holds_run ops w : holds I w -> holds I (run ops w).
Proof.
  revert w. induction ops as [|op ops IH]; intros w Hinv; simpl; [done|].
  by apply IH, holds_exec.
Qed.

End heap_invariant.

(** ** Sessions keep their identifier and stay closed *)

Lemma session_step_refl s : session_step s s.
Proof.
  split; [done|]. split; [done|]. intros Hopen Hclosed. congruence.
Qed.

Lemma sessions_evolve_refl h : sessions_evolve h h.
Proof.
  split.
  - intros ref s Hs. exists s. split; [done | apply session_step_refl].
  - intros ref s Hs Hnone. congruence.
Qed.

Lemma is_closed_connection s : is_closed s -> _connection s = None.
Proof. by intros [_ ?]. Qed.

Lemma sessions_evolve_trans h1 h2 h3 :
  sessions_evolve h1 h2 -> sessions_evolve h2 h3 -> sessions_evolve h1 h3.
Proof.
  intros [Hold12 Hnew12] [Hold23 Hnew23]. split.
  - intros ref s1 Hs1.
    destruct (Hold12 _ _ Hs1) as (s2 & Hs2 & Hid12 & Hkeep12 & Hlose12).
    destruct (Hold23 _ _ Hs2) as (s3 & Hs3 & Hid23 & Hkeep23 & Hlose23).
    exists s3. split; [done|]. split; [congruence|]. split; [auto|].
    intros Hopen1 Hnone3.
    destruct (_connection s2) as [[]|] eqn:Hc2; [by apply Hlose23|].
    apply Hkeep23, Hlose12; done.
  - intros ref s3 Hs3 Hnone1 Hclosed3.
    destruct (h2 !! ref) as [s2|] eqn:Hs2; [|by eapply Hnew23].
    destruct (Hold23 _ _ Hs2) as (s3' & Hs3' & _ & Hkeep23 & Hlose23).
    rewrite Hs3 in Hs3'. injection Hs3' as <-.
    destruct (_connection s2) as [[]|] eqn:Hc2; [by apply Hlose23|].
    apply Hkeep23. by eapply Hnew12.
Qed.

Lemma sessions_evolve_update h this s s' :
  h !! this = Some s -> session_step s s' ->
  sessions_evolve h (<[this := s']> h).
Proof.
  intros Hs Hstep. split.
  - intros ref s0 Hs0. destruct (decide (ref = this)) as [->|Hne].
    + exists s'. rewrite list_lookup_insert_eq by (by eapply lookup_lt_Some).
      rewrite Hs in Hs0. by injection Hs0 as <-.
    + exists s0. rewrite list_lookup_insert_ne by done.
      split; [done | apply session_step_refl].
  - intros ref s0 Hs0 Hnone. apply lookup_lt_Some in Hs0.
    rewrite length_insert in Hs0. apply lookup_ge_None in Hnone. lia.
Qed.

Lemma sessions_evolve_run ops w :
  sessions_evolve (heap w) (heap (run ops w)).
Proof.
  apply (holds_run (fun _ h => sessions_evolve (heap w) h)).
  - done.
  - intros l h this s p method Hev Hs Hopen.
    eapply sessions_evolve_trans; [exact Hev|].
    apply (sessions_evolve_update h this s); [done|].
    split; [done|]. split.
    + intros Hclosed%is_closed_connection. congruence.
    + simpl. congruence.
  - intros l h this s k callback Hev Hs Hg.
    eapply sessions_evolve_trans; [exact Hev|].
    apply (sessions_evolve_update h this s); [done|].
    split; [done|]. split.
    + intros [Hempty _]. by rewrite Hempty in Hg.
    + simpl. congruence.
  - intros l h this s Hev Hs.
    eapply sessions_evolve_trans; [exact Hev|].
    apply (sessions_evolve_update h this s); [done|].
    split; [done|]. by split.
  - intros l h id Hev.
    eapply sessions_evolve_trans; [exact Hev|]. split.
    + intros ref s Hs. exists s. split; [|apply session_step_refl].
      rewrite lookup_app_l; [done | by eapply lookup_lt_Some].
    + intros ref s' [[_ Hs']|[_ <-]]%lookup_snoc_Some Hnone; [congruence|].
      done.
  - apply sessions_evolve_refl.
Qed.

(** X11. In every run a session object keeps the identifier it was
    created with.  A session that has lost its connection has no
    pending command, and whatever is done afterwards it stays so:
    closing is permanent. *)
Theorem X11_closed_for_good
    (ops ops' : list Op) (ref : SessionRef) (s : CDPSession) :
  let w := run ops new_Connection in
  heap w !! ref = Some s ->
  exists s',
    heap (run ops' w) !! ref = Some s'
    /\ _sessionId s' = _sessionId s
    /\ (_connection s = None ->
        _callbacks s = [] /\ _connection s' = None /\ _callbacks s' = []).
Proof.
  intros w Hs.
  destruct (sessions_evolve_run ops new_Connection) as [Hold0 Hnew0].
  fold w in Hold0, Hnew0.
  destruct (sessions_evolve_run ops' w) as [Hold _].
  destruct (Hold _ _ Hs) as (s' & Hs' & Hid & Hkeep & _).
  exists s'. split; [done|]. split; [done|].
  intros Hnone.
  assert (Hclosed : is_closed s).
  { destruct (heap new_Connection !! ref) as [s0|] eqn:Hs0.
    - destruct (Hold0 _ _ Hs0) as (s1 & Hs1 & _ & _ & Hlose).
      rewrite Hs in Hs1. injection Hs1 as <-. apply Hlose; [|done].
      destruct ref as [|ref]; simpl in Hs0; [by injection Hs0 as <-|].
      by rewrite lookup_nil in Hs0.
    - by eapply Hnew0. }
  destruct (Hkeep Hclosed) as [? ?]. by destruct Hclosed.
Qed.

(** ** An identifier is pending in one session only *)

(** One object replaced by one whose pending identifiers were pending
    before or have just been issued. *)
Lemma keys_sound_update l l' h this s s' :
  h !! this = Some s -> l <= l' ->
  (forall k, k ∈ JsMap.keys (_callbacks s') ->
     k ∈ JsMap.keys (_callbacks s) \/ l < k <= l') ->
  keys_sound l h -> keys_sound l' (<[this := s']> h).
Proof.
  intros Hs Hle Hkeys (Hpos & Hissued & Hdisj).
  assert (Hbound : forall ref x k,
            <[this := s']> h !! ref = Some x -> k ∈ JsMap.keys (_callbacks x) ->
            (ref = this /\ l < k <= l')
            \/ exists y, h !! ref = Some y /\ k ∈ JsMap.keys (_callbacks y)).
  { intros ref x k Hx Hk.
    apply list_lookup_insert_Some in Hx as [(<- & <- & _)|[Hne Hx]].
    - destruct (Hkeys _ Hk) as [Hold|Hnew]; [right; by exists s | by left].
    - right. by exists x. }
  split; [lia|]. split.
  - intros ref x k Hx Hk.
    destruct (Hbound _ _ _ Hx Hk) as [[_ ?]|(y & Hy & Hky)]; [lia|].
    specialize (Hissued _ _ _ Hy Hky). lia.
  - intros ref1 ref2 x1 x2 k Hx1 Hx2 Hk1 Hk2.
    destruct (Hbound _ _ _ Hx1 Hk1) as [[-> Hnew1]|(y1 & Hy1 & Hky1)];
      destruct (Hbound _ _ _ Hx2 Hk2) as [[-> Hnew2]|(y2 & Hy2 & Hky2)].
    + done.
    + specialize (Hissued _ _ _ Hy2 Hky2). lia.
    + specialize (Hissued _ _ _ Hy1 Hky1). lia.
    + by eapply Hdisj.
Qed.

Lemma keys_sound_run ops :
  holds keys_sound (run ops new_Connection).
Proof.
  apply holds_run.
  - intros l h (Hpos & Hissued & Hdisj). split; [lia|]. split; [|done].
    intros ref s k Hs Hk. specialize (Hissued _ _ _ Hs Hk). lia.
  - intros l h this s p method Hinv Hs Hopen.
    apply (keys_sound_update l _ h this s); [done | lia | | done].
    intros k Hk. simpl in Hk.
    assert (Hfresh : l + 1 ∉ JsMap.keys (_callbacks s)).
    { destruct Hinv as (_ & Hissued & _). intros Hin.
      specialize (Hissued _ _ _ Hs Hin). lia. }
    rewrite keys_set_fresh in Hk by done.
    apply elem_of_app in Hk as [Hk|Hk]; [by left|].
    apply list_elem_of_singleton in Hk. right. lia.
  - intros l h this s k callback Hinv Hs Hg.
    apply (keys_sound_update l _ h this s); [done | lia | | done].
    intros k' Hk'. simpl in Hk'. left. by eapply keys_delete.
  - intros l h this s Hinv Hs.
    apply (keys_sound_update l _ h this s); [done | lia | | done].
    intros k Hk. by apply elem_of_nil in Hk.
  - intros l h id (Hpos & Hissued & Hdisj). split; [done|].
    assert (Hold : forall ref s k,
              (h ++ [new_session id]) !! ref = Some s ->
              k ∈ JsMap.keys (_callbacks s) -> h !! ref = Some s).
    { intros ref s k [[_ Hs]|[_ <-]]%lookup_snoc_Some Hk; [done|].
      by apply elem_of_nil in Hk. }
    split.
    + intros ref s k Hs Hk. eapply Hissued; [by eapply Hold | done].
    + intros ref1 ref2 s1 s2 k Hs1 Hs2 Hk1 Hk2.
      eapply Hdisj; [by eapply Hold | by eapply Hold | done | done].
  - split; [done|]. split.
    + intros [|ref] s k Hs Hk; simpl in Hs.
      * injection Hs as <-. by apply elem_of_nil in Hk.
      * by rewrite lookup_nil in Hs.
    + intros [|ref1] ref2 s1 s2 k Hs1 Hs2 Hk1; simpl in Hs1.
      * injection Hs1 as <-. by apply elem_of_nil in Hk1.
      * by rewrite lookup_nil in Hs1.
Qed.

(** X13. In every run the identifiers of the pending commands lie
    between 1 and [_lastId], and an identifier is pending in one session
    only.  So a reply that reaches another session than the one that
    sent the command makes that session throw and changes nothing: the
    command stays pending where it was sent. *)
Theorem X13_reply_to_another_session
    (ops : list Op) (a b : SessionRef) (sa sb : CDPSession)
    (id : Z) (object : ProtocolResponse) :
  let w := run ops new_Connection in
  heap w !! a = Some sa ->
  heap w !! b = Some sb ->
  a <> b ->
  id ∈ JsMap.keys (_callbacks sa) ->
  msg_id object = Some id ->
  0 < id <= _lastId (connection w)
  /\ CDPSession_onMessage b object w
     = (Throw {| stack := at_CDPSession_onMessage; message := EmptyString |}, w).
Proof.
  intros w Ha Hb Hne Hpending Hid.
  destruct (keys_sound_run ops) as (_ & Hissued & Hdisj). fold w in Hissued, Hdisj.
  pose proof (Hissued _ _ _ Ha Hpending) as Hrange. split; [done|].
  eapply onMessage_unexpected; [exact Hb | exact Hid | lia |].
  apply get_None_keys. intros Hin. apply Hne. by eapply Hdisj.
Qed.

(** ** Sessions do not touch each other *)

Lemma sendOrDie_other this other method params w :
  other <> this ->
  heap (snd (sendOrDie this method params w)) !! other = heap w !! other.
Proof.
  intros Hne. destruct (heap w !! this) as [s|] eqn:Hs.
  2: { by rewrite sendOrDie_dangling. }
  destruct (_connection s) as [c|] eqn:Hconn.
  - rewrite (sendOrDie_open_eq _ _ _ _ _ _ Hs Hconn). simpl.
    by rewrite list_lookup_insert_ne.
  - by rewrite (sendOrDie_closed_eq _ _ _ _ _ Hs Hconn).
Qed.

Lemma onMessage_other this other object w :
  other <> this ->
  heap (snd (CDPSession_onMessage this object w)) !! other = heap w !! other.
Proof.
  intros Hne. destruct (heap w !! this) as [s|] eqn:Hs.
  2: { by rewrite onMessage_dangling. }
  destruct (truthy_number (msg_id object)) eqn:Htruthy.
  2: { by destruct (onMessage_event_world _ _ _ _ Hs Htruthy) as [-> | ->]. }
  apply truthy_number_true in Htruthy as (id & Hid & Hnz).
  destruct (JsMap.get id (_callbacks s)) as [callback|] eqn:Hg.
  2: { by rewrite (onMessage_unexpected _ _ _ _ _ Hs Hid Hnz Hg). }
  rewrite (onMessage_reply _ _ _ _ _ _ Hs Hid Hnz Hg). simpl.
  by rewrite list_lookup_insert_ne.
Qed.

Lemma session_dispose_other this other w :
  other <> this ->
  heap (snd (CDPSession_dispose this w)) !! other = heap w !! other.
Proof.
  intros Hne. rewrite session_dispose_eq.
  destruct (heap w !! this) as [s|] eqn:Hs; [|done].
  destruct (_connection s); [|done].
  rewrite (disposeSession_eq _ _ _ Hs). simpl.
  by rewrite list_lookup_insert_ne.
Qed.

(** X10. The operations of one session leave every other session
    object as it is: its pending commands, its connection and its
    identifier.  So does a message of the transport for every session
    but the one registered under the identifier it carries. *)
Theorem X10_sessions_are_isolated
    (this other : SessionRef) (method : string) (params : option Json)
    (object : ProtocolResponse) (w : World) :
  other <> this ->
  heap (snd (sendOrDie this method params w)) !! other = heap w !! other
  /\ heap (snd (send this method params w)) !! other = heap w !! other
  /\ heap (snd (detach this w)) !! other = heap w !! other
  /\ heap (snd (CDPSession_dispose this w)) !! other = heap w !! other
  /\ (session (or_empty (msg_sessionId object)) w = (Normal (Some this), w) ->
      heap (snd (Connection_onMessage object w)) !! other = heap w !! other).
Proof.
  intros Hne. split; [by apply sendOrDie_other|]. split.
  { rewrite send_world. by apply sendOrDie_other. }
  split.
  { rewrite detach_eq. destruct (heap w !! this) as [s|]; [|done].
    by destruct (_connection s). }
  split; [by apply session_dispose_other|].
  intros Hlookup. rewrite session_eq in Hlookup.
  rewrite Connection_onMessage_eq.
  destruct (JsMap.get _ _) as [s|]; [|done].
  assert (s = this) as -> by congruence. by apply onMessage_other.
Qed.

(** ** What a caller sees of a closed session *)

(** X14. In every run, the best-effort [send] on a closed session
    answers a promise that is already fulfilled with [null]; nothing is
    sent and neither the connection nor any session changes. *)
Theorem X14_send_on_closed_session
    (ops : list Op) (this : SessionRef) (s : CDPSession)
    (method : string) (params : option Json) :
  let w := run ops new_Connection in
  heap w !! this = Some s ->
  _connection s = None ->
  exists pr w1,
    send this method params w = (Normal pr, w1)
    /\ promise_state (trace w1) pr = Fulfilled VNull
    /\ heap w1 = heap w
    /\ connection w1 = connection w
    /\ sent_ids (trace w1) = sent_ids (trace w).
Proof.
  intros w Hs Hclosed.
  destruct (next_is_fresh ops) as (Hpending & _). fold w in Hpending.
  unfold send, bind. rewrite (sendOrDie_closed_eq _ _ _ _ _ Hs Hclosed).
  eexists _, _. split; [done|]. simpl. split.
  { rewrite settlement_app, Hpending. simpl. by rewrite decide_True. }
  split; [done|]. split; [done|].
  rewrite sent_ids_app. simpl. by rewrite app_nil_r.
Qed.

(** ** Closing rejects what is pending *)

Lemma tokens_captured_run ops :
  tokens_captured (heap (run ops new_Connection)).
Proof.
  apply (holds_run (fun _ h => tokens_captured h)).
  - done.
  - intros l h this s p method Hinv Hs Hopen ref x k callback Hx Hg.
    apply list_lookup_insert_Some in Hx as [(<- & <- & _)|[Hne Hx]];
      [|by eapply Hinv].
    simpl in Hg. destruct (decide (l + 1 = k)) as [<-|Hk].
    + rewrite get_set_eq in Hg. by injection Hg as <-.
    + rewrite get_set_ne in Hg by done. by eapply Hinv.
  - intros l h this s k callback Hinv Hs Hg ref x k' callback' Hx Hg'.
    apply list_lookup_insert_Some in Hx as [(<- & <- & _)|[Hne Hx]];
      [|by eapply Hinv].
    simpl in Hg'. destruct (decide (k = k')) as [<-|Hk].
    + by rewrite get_delete_eq in Hg'.
    + rewrite get_delete_ne in Hg' by done. by eapply Hinv.
  - intros l h this s Hinv Hs ref x k callback Hx Hg.
    apply list_lookup_insert_Some in Hx as [(<- & <- & _)|[Hne Hx]];
      [done | by eapply Hinv].
  - intros l h id Hinv ref x k callback [[_ Hx]|[_ <-]]%lookup_snoc_Some Hg;
      [by eapply Hinv | done].
  - intros [|ref] s k callback Hs Hg; simpl in Hs.
    + by injection Hs as <-.
    + by rewrite lookup_nil in Hs.
Qed.

(** Among the rejections of a closing session, the one of a promise
    awaited once is the one of its entry. *)
Lemma settlement_close_rejections callback (l : list ProtocolCallback) rest :
  callback ∈ l ->
  (length (filter (fun cb => cb_promise cb = cb_promise callback) l) <= 1)%nat ->
  settlement (cb_promise callback) (map close_rejection l ++ rest)
  = Rejected (with_message (cb_from callback)
                ("Protocol error (" +:+ cb_method callback +:+ "): Target closed.")).
Proof.
  induction l as [|x l IH]; [by intros ?%elem_of_nil|].
  rewrite filter_cons. simpl.
  destruct (decide (cb_promise callback = cb_promise x)) as [Heq|Hne].
  - rewrite decide_True by done. simpl. intros Hin Hlen.
    apply elem_of_cons in Hin as [->|Hin]; [done|].
    assert (Hc : callback ∈ filter (fun cb => cb_promise cb = cb_promise callback) l).
    { by apply list_elem_of_filter. }
    destruct (filter _ l); [by apply elem_of_nil in Hc | simpl in Hlen; lia].
  - rewrite decide_False by done. intros Hin Hlen.
    apply elem_of_cons in Hin as [->|Hin]; [done|]. by apply IH.
Qed.

(** In a run, a promise with a pending entry is not settled, and has no
    other entry, in this session or in another. *)
Lemma pending_entry_alone ops this s id callback :
  let w := run ops new_Connection in
  heap w !! this = Some s ->
  JsMap.get id (_callbacks s) = Some callback ->
  settlement (cb_promise callback) (trace w) = Pending
  /\ (awaiting (cb_promise callback) s <= 1)%nat
  /\ forall other s', other <> this -> heap w !! other = Some s' ->
       awaiting (cb_promise callback) s' = 0%nat.
Proof.
  intros w Hs Hg.
  pose proof (settled_once_run ops _ settled_once_new) as [Hc _ _].
  fold w in Hc. specialize (Hc (cb_promise callback)).
  assert (Hone : (1 <= awaiting (cb_promise callback) s)%nat).
  { unfold awaiting.
    assert (Hin : callback ∈ filter (fun cb => cb_promise cb = cb_promise callback)
                              (JsMap.values (_callbacks s))).
    { apply list_elem_of_filter. split; [done | by eapply get_Some_values]. }
    destruct (filter _ _); [by apply elem_of_nil in Hin | simpl; lia]. }
  pose proof (sum_insert (awaiting (cb_promise callback)) (heap w) this s
                (closed_session s) Hs) as Hsum.
  change (awaiting (cb_promise callback) (closed_session s)) with O in Hsum.
  unfold pending in Hc.
  split; [|split].
  - apply settlement_pending. case_decide; lia.
  - case_decide; lia.
  - intros other s' Hne Hs'.
    assert (Hle : (awaiting (cb_promise callback) s'
                   <= sum_list_with (awaiting (cb_promise callback))
                        (<[this := closed_session s]> (heap w)))%nat).
    { apply sum_list_with_in. eapply list_elem_of_lookup_2.
      by rewrite list_lookup_insert_ne. }
    case_decide; lia.
Qed.

(** X15. In every run, disposing a session settles each of its pending
    commands: the promise, pending until then, is rejected with the
    token captured for the identifier of the command and the message
    [Protocol error (<method>): Target closed.] for the method recorded
    with it. *)
Theorem X15_dispose_rejects_pending
    (ops : list Op) (this : SessionRef) (s : CDPSession)
    (id : Z) (callback : ProtocolCallback) :
  let w := run ops new_Connection in
  let w1 := snd (CDPSession_dispose this w) in
  heap w !! this = Some s ->
  _connection s = Some this_connection ->
  JsMap.get id (_callbacks s) = Some callback ->
  promise_state (trace w) (promise (cb_promise callback)) = Pending
  /\ promise_state (trace w1) (promise (cb_promise callback))
     = Rejected {| stack := at_sendOrDie_from id;
                   message := "Protocol error (" +:+ cb_method callback
                              +:+ "): Target closed." |}.
Proof.
  intros w w1 Hs Hopen Hg.
  destruct (pending_entry_alone ops this s id callback Hs Hg) as (Hpending & Hone & _).
  fold w in Hpending. split; [done|].
  subst w1. rewrite session_dispose_eq, Hs, Hopen.
  rewrite (disposeSession_eq _ _ _ Hs). simpl.
  rewrite settlement_app, Hpending.
  rewrite settlement_close_rejections; [|by eapply get_Some_values | done].
  pose proof (tokens_captured_run ops _ _ _ _ Hs Hg) as Htoken.
  by rewrite Htoken.
Qed.

Lemma onClose_trace_extends this w :
  exists t, trace (snd (CDPSession_onClose this w)) = trace w ++ t.
Proof.
  destruct (heap w !! this) as [s|] eqn:Hs.
  - rewrite (onClose_eq _ _ _ Hs). by eexists.
  - rewrite onClose_dangling by done. exists []. by rewrite app_nil_r.
Qed.

Lemma forEach_onClose_trace_extends refs w :
  exists t, trace (snd (forEach CDPSession_onClose refs w)) = trace w ++ t.
Proof.
  revert w. induction refs as [|r refs IH]; intros w; simpl.
  { exists []. by rewrite app_nil_r. }
  unfold bind. destruct (onClose_trace_extends r w) as [t1 Ht1].
  destruct (CDPSession_onClose r w) as [[[]|e] w1]; simpl in *; [|by eexists].
  destruct (IH w1) as [t2 Ht2]. exists (t1 ++ t2).
  by rewrite Ht2, Ht1, app_assoc.
Qed.

Lemma settlement_extends p t1 t2 e :
  settlement p t1 = Rejected e -> settlement p (t1 ++ t2) = Rejected e.
Proof. intros Hr. by rewrite settlement_app, Hr. Qed.

(** The loop of [_onTransportClose] rejects a command pending on one of
    the sessions it visits. *)
Lemma forEach_onClose_rejects refs w this s callback :
  (forall ref, ref ∈ refs -> (ref < length (heap w))%nat) ->
  this ∈ refs ->
  heap w !! this = Some s ->
  callback ∈ JsMap.values (_callbacks s) ->
  (awaiting (cb_promise callback) s <= 1)%nat ->
  (forall other s', other <> this -> heap w !! other = Some s' ->
     awaiting (cb_promise callback) s' = 0%nat) ->
  settlement (cb_promise callback) (trace w) = Pending ->
  settlement (cb_promise callback)
    (trace (snd (forEach CDPSession_onClose refs w)))
  = Rejected (with_message (cb_from callback)
                ("Protocol error (" +:+ cb_method callback +:+ "): Target closed.")).
Proof.
  revert w. induction refs as [|r refs IH];
    intros w Hvalid Hin Hs Hcb Hone Hothers Hpending.
  { by apply elem_of_nil in Hin. }
  destruct (lookup_lt_is_Some_2 (heap w) r) as [s0 Hs0].
  { apply Hvalid. left. }
  simpl. unfold bind. rewrite (onClose_eq _ _ _ Hs0).
  match goal with |- context [forEach _ _ ?w0] => set (w1 := w0) end.
  destruct (decide (r = this)) as [->|Hne].
  - rewrite Hs in Hs0. injection Hs0 as <-.
    destruct (forEach_onClose_trace_extends refs w1) as [t Ht].
    rewrite Ht. apply settlement_extends. simpl.
    rewrite settlement_app, Hpending.
    by apply settlement_close_rejections.
  - apply IH.
    + intros ref Href. simpl. rewrite length_insert. apply Hvalid. by right.
    + apply elem_of_cons in Hin as [Heq|Hin]; [congruence | done].
    + simpl. by rewrite list_lookup_insert_ne.
    + done.
    + done.
    + intros other s' Hother Hs'. simpl in Hs'.
      apply list_lookup_insert_Some in Hs' as [(_ & <- & _)|[_ Hs']];
        [done | by eapply Hothers].
    + simpl. rewrite settlement_app, Hpending. rewrite settlement_app.
      assert (Hzero : settlement (cb_promise callback)
                        (map close_rejection (JsMap.values (_callbacks s0)))
                      = Pending).
      { apply settlement_pending. rewrite settle_calls_close_rejections.
        by apply (Hothers r s0). }
      by rewrite Hzero.
Qed.

(** X16. In every run, disposing a connection that is not closed yet
    settles the commands pending on its registered sessions: each
    promise, pending until then, is rejected with the token captured for
    the identifier of the command and the message
    [Protocol error (<method>): Target closed.] *)
Theorem X16_connection_dispose_rejects_pending
    (ops : list Op) (this : SessionRef) (s : CDPSession)
    (id : Z) (callback : ProtocolCallback) :
  let w := run ops new_Connection in
  let w1 := snd (Connection_dispose w) in
  _closed (connection w) = false ->
  session (_sessionId s) w = (Normal (Some this), w) ->
  heap w !! this = Some s ->
  JsMap.get id (_callbacks s) = Some callback ->
  promise_state (trace w) (promise (cb_promise callback)) = Pending
  /\ promise_state (trace w1) (promise (cb_promise callback))
     = Rejected {| stack := at_sendOrDie_from id;
                   message := "Protocol error (" +:+ cb_method callback
                              +:+ "): Target closed." |}.
Proof.
  intros w w1 Hopen Hlookup Hs Hg.
  destruct (pending_entry_alone ops this s id callback Hs Hg)
    as (Hpending & Hone & Hothers).
  fold w in Hpending, Hothers. split; [done|].
  pose proof (registry_sound_run ops _ registry_sound_new) as Hsound.
  fold w in Hsound.
  rewrite session_eq in Hlookup.
  assert (Hreg : this ∈ JsMap.values (_sessions (connection w))).
  { assert (Hget : JsMap.get (_sessionId s) (_sessions (connection w)) = Some this)
      by congruence.
    by eapply get_Some_values. }
  pose proof (tokens_captured_run ops _ _ _ _ Hs Hg) as Htoken.
  assert (Hloop : settlement (cb_promise callback)
                    (trace (snd (Connection_onTransportClose w)))
                  = Rejected {| stack := at_sendOrDie_from id;
                                message := "Protocol error (" +:+ cb_method callback
                                           +:+ "): Target closed." |}).
  { rewrite onTransportClose_open by done.
    match goal with |- context [forEach ?f ?l ?w0] =>
      pose proof (forEach_onClose_rejects l w0 this s callback) as Hrej;
      destruct (forEach f l w0) as [[[]|e] w']
    end; simpl in *; rewrite Hrej; try done;
      try (by rewrite Htoken);
      try (by eapply get_Some_values);
      intros ref Href; by apply registry_sound_valid. }
  subst w1. unfold Connection_dispose, bind.
  destruct (Connection_onTransportClose w) as [[[]|e] w']; simpl in *; [|done].
  by apply settlement_extends.
Qed.

(** ** Creating sessions *)

(** X17. [createSession] registers an open session without pending
    command under the identifier it is given and answers it; what
    [session] finds under every other identifier, the session objects
    that exist, the identifiers issued and the trace stay as they
    were. *)
Theorem X17_createSession_registers_one
    (id other : string) (w : World) :
  other <> id ->
  exists new w1,
    createSession id w = (Normal new, w1)
    /\ fst (session id w1) = Normal (Some new)
    /\ fst (session other w1) = fst (session other w)
    /\ sessionId new w1 = (Normal id, w1)
    /\ isClosed new w1 = (Normal false, w1)
    /\ heap w1 !! new
       = Some {| _connection := Some this_connection; _callbacks := [];
                 _sessionId := id |}
    /\ (forall ref s, heap w !! ref = Some s -> heap w1 !! ref = Some s)
    /\ trace w1 = trace w
    /\ _lastId (connection w1) = _lastId (connection w).
Proof.
  intros Hne. rewrite createSession_eq. eexists _, _. split; [done|].
  set (w1 := {| connection := _ |}).
  assert (Hnew : heap w1 !! length (heap w) = Some (new_session id)).
  { simpl. by apply list_lookup_middle. }
  split. { rewrite session_eq. simpl. by rewrite get_set_eq. }
  split. { rewrite !session_eq. simpl. by rewrite get_set_ne. }
  split. { by rewrite (sessionId_eq _ _ _ Hnew). }
  split. { by rewrite (isClosed_eq _ _ _ Hnew). }
  split; [done|]. split; [|done].
  intros ref s Hs. simpl. rewrite lookup_app_l; [done|]. by eapply lookup_lt_Some.
Qed.

Lemma exec_browserSession op w :
  _browserSession (connection (exec op w)) = _browserSession (connection w).
Proof.
  destruct op as [id|s m ps|s m ps|s|s| |object| |s ev|s ev]; cbn [exec];
    rewrite ?send_world.
  - by rewrite createSession_eq.
  - destruct (heap w !! s) as [s0|] eqn:Hs; [|by rewrite sendOrDie_dangling].
    destruct (_connection s0) as [c|] eqn:Hconn.
    + by rewrite (sendOrDie_open_eq _ _ _ _ _ _ Hs Hconn).
    + by rewrite (sendOrDie_closed_eq _ _ _ _ _ Hs Hconn).
  - destruct (heap w !! s) as [s0|] eqn:Hs; [|by rewrite sendOrDie_dangling].
    destruct (_connection s0) as [c|] eqn:Hconn.
    + by rewrite (sendOrDie_open_eq _ _ _ _ _ _ Hs Hconn).
    + by rewrite (sendOrDie_closed_eq _ _ _ _ _ Hs Hconn).
  - rewrite detach_eq. destruct (heap w !! s) as [s0|]; [|done].
    by destruct (_connection s0).
  - rewrite session_dispose_eq. destruct (heap w !! s) as [s0|] eqn:Hs; [|done].
    destruct (_connection s0); [|done]. by rewrite (disposeSession_eq _ _ _ Hs).
  - unfold Connection_dispose, bind.
    destruct (_closed (connection w)) eqn:Hc.
    { by rewrite onTransportClose_closed. }
    rewrite onTransportClose_open by done.
    match goal with |- context [forEach ?f ?l ?w0] =>
      pose proof (forEach_onClose_connection l w0) as Hconn;
      destruct (forEach f l w0) as [[[]|e] w']
    end; simpl in *; by rewrite Hconn.
  - destruct (onmessage _); [|done]. rewrite Connection_onMessage_eq.
    destruct (JsMap.get _ _) as [s|]; [|done].
    destruct (heap w !! s) as [s0|] eqn:Hs; [|by rewrite onMessage_dangling].
    destruct (truthy_number (msg_id object)) eqn:Htruthy.
    2: { by destruct (onMessage_event_world _ _ _ _ Hs Htruthy) as [-> | ->]. }
    apply truthy_number_true in Htruthy as (id & Hid & Hnz).
    destruct (JsMap.get id (_callbacks s0)) as [callback|] eqn:Hg.
    + by rewrite (onMessage_reply _ _ _ _ _ _ Hs Hid Hnz Hg).
    + by rewrite (onMessage_unexpected _ _ _ _ _ Hs Hid Hnz Hg).
  - destruct (onclose _); [|done].
    destruct (_closed (connection w)) eqn:Hc.
    { by rewrite onTransportClose_closed. }
    rewrite onTransportClose_open by done.
    match goal with |- context [forEach ?f ?l ?w0] =>
      pose proof (forEach_onClose_connection l w0) as Hconn;
      destruct (forEach f l w0) as [[[]|e] w']
    end; simpl in *; by rewrite Hconn.
  - done.
  - done.
Qed.

Lemma run_browserSession ops w :
  _browserSession (connection (run ops w)) = _browserSession (connection w).
Proof.
  revert w. induction ops as [|op ops IH]; intros w; simpl; [done|].
  by rewrite IH, exec_browserSession.
Qed.

(** X18. In every run [browserSession] answers the session object
    created with the connection, and the identifier of that object is
    the empty one. *)
Theorem X18_browserSession_is_the_root (ops : list Op) :
  let w := run ops new_Connection in
  browserSession w = (Normal O, w)
  /\ sessionId O w = (Normal EmptyString, w).
Proof.
  intros w. split.
  - unfold browserSession, bind, get_connection, ret. subst w.
    by rewrite run_browserSession.
  - destruct (sessions_evolve_run ops new_Connection) as [Hold _].
    destruct (Hold O _ eq_refl) as (s & Hs & Hid & _). fold w in Hs.
    by rewrite (sessionId_eq _ _ _ Hs), Hid.
Qed.

(** X19. Closing happens once.  A session created on a connection that
    is already closed is open and registered, a command sent on it is
    put on the wire and recorded, and disposing the connection again
    does not close that session: the promise of the command stays
    pending and its entry stays in the map. *)
Theorem X19_session_created_after_close
    (ops : list Op) (id method : string) (params : option Json) :
  let w := run ops new_Connection in
  let new := length (heap w) in
  let w1 := snd (createSession id w) in
  let w2 := snd (sendOrDie new method params w1) in
  let w3 := snd (Connection_dispose w2) in
  _closed (connection w) = true ->
  fst (createSession id w) = Normal new
  /\ session id w1 = (Normal (Some new), w1)
  /\ isClosed new w1 = (Normal false, w1)
  /\ fst (sendOrDie new method params w1) = Normal (promises w)
  /\ sent_ids (trace w2) = sent_ids (trace w) ++ [_lastId (connection w) + 1]
  /\ _closed (connection w3) = true
  /\ session id w3 = (Normal (Some new), w3)
  /\ isClosed new w3 = (Normal false, w3)
  /\ promise_state (trace w3) (promise (promises w)) = Pending
  /\ exists s, heap w3 !! new = Some s
               /\ _connection s = Some this_connection
               /\ JsMap.has (_lastId (connection w) + 1) (_callbacks s) = true.
Proof.
  intros w new w1 w2 w3 Hclosed.
  destruct (next_is_fresh ops) as (Hpending & _). fold w in Hpending.
  subst w3 w2 w1. rewrite createSession_eq. simpl. split; [done|].
  set (w1 := {| connection := _ |}).
  assert (Hnew : heap w1 !! new = Some (new_session id)).
  { simpl. by apply list_lookup_middle. }
  split. { rewrite session_eq. simpl. by rewrite get_set_eq. }
  split. { by rewrite (isClosed_eq _ _ _ Hnew). }
  rewrite (sendOrDie_open_eq _ _ this_connection _ _ _ Hnew) by done.
  simpl. split; [done|]. split.
  { by rewrite sent_ids_app. }
  unfold Connection_dispose, bind.
  rewrite onTransportClose_closed by done. simpl.
  set (s2 := set_callbacks _ (new_session id)).
  assert (Hs2 : <[new := s2]> (heap w ++ [new_session id]) !! new = Some s2).
  { apply list_lookup_insert_eq. rewrite length_app. simpl. subst new. lia. }
  split; [done|]. split.
  { rewrite session_eq. simpl. by rewrite get_set_eq. }
  split.
  { erewrite isClosed_eq; [|exact Hs2]. done. }
  split.
  - rewrite !settlement_app, Hpending. done.
  - exists s2. split; [exact Hs2|]. split; [done|].
    apply has_get. subst s2. simpl. rewrite decide_True by done. by eexists.
Qed.

(** * Routing and settlement over whole runs *)

Lemma onMessage_connection this object w :
  connection (snd (CDPSession_onMessage this object w)) = connection w.
Proof.
  destruct (heap w !! this) as [s|] eqn:Hs.
  2: { by rewrite onMessage_dangling. }
  destruct (truthy_number (msg_id object)) eqn:Htruthy.
  2: { by destruct (onMessage_event_world _ _ _ _ Hs Htruthy) as [-> | ->]. }
  apply truthy_number_true in Htruthy as (id & Hid & Hnz).
  destruct (JsMap.get id (_callbacks s)) as [callback|] eqn:Hg.
  - by rewrite (onMessage_reply _ _ _ _ _ _ Hs Hid Hnz Hg).
  - by rewrite (onMessage_unexpected _ _ _ _ _ Hs Hid Hnz Hg).
Qed.

Lemma sendOrDie_registry this method params w :
  _sessions (connection (snd (sendOrDie this method params w)))
  = _sessions (connection w).
Proof.
  destruct (heap w !! this) as [s|] eqn:Hs; [|by rewrite sendOrDie_dangling].
  destruct (_connection s) as [c|] eqn:Hconn.
  - by rewrite (sendOrDie_open_eq _ _ _ _ _ _ Hs Hconn).
  - by rewrite (sendOrDie_closed_eq _ _ _ _ _ Hs Hconn).
Qed.

Lemma exec_keeps_root op w :
  touches_root op w = false ->
  JsMap.get EmptyString (_sessions (connection (exec op w)))
  = JsMap.get EmptyString (_sessions (connection w)).
Proof.
  destruct op as [id|s m ps|s m ps|s|s| |object| |s ev|s ev]; cbn [exec touches_root];
    rewrite ?send_world; intros Hkeep; try done.
  - rewrite createSession_eq. simpl. apply bool_decide_eq_false in Hkeep.
    by rewrite get_set_ne.
  - by rewrite sendOrDie_registry.
  - by rewrite sendOrDie_registry.
  - rewrite detach_eq. destruct (heap w !! s) as [s0|]; [|done].
    by destruct (_connection s0).
  - rewrite session_dispose_eq. destruct (heap w !! s) as [s0|] eqn:Hs; [|done].
    destruct (_connection s0); [|done].
    rewrite (disposeSession_eq _ _ _ Hs). simpl.
    apply bool_decide_eq_false in Hkeep. by rewrite get_delete_ne.
  - destruct (onmessage _); [|done]. rewrite Connection_onMessage_eq.
    destruct (JsMap.get (or_empty (msg_sessionId object)) _) as [s|]; [|done].
    by rewrite onMessage_connection.
Qed.

Lemma root_kept_registered ops w :
  root_kept ops w = true ->
  JsMap.get EmptyString (_sessions (connection (run ops w)))
  = JsMap.get EmptyString (_sessions (connection w)).
Proof.
  revert w. induction ops as [|op ops IH]; intros w Hkept; simpl in *; [done|].
  apply andb_true_iff in Hkept as [Hop Hkept]. apply negb_true_iff in Hop.
  by rewrite IH, exec_keeps_root.
Qed.

(** C3. [Connection._onMessage] looks the session up under the session
    identifier of the message, an absent or empty identifier standing
    for the empty key, and hands the message to the session registered
    under that key.  When none is registered, handling fails with
    [Unknown session id: ] followed by the identifier of the message,
    and changes nothing.  The root session is registered under the
    empty key when the connection is built, and stays so in every run
    that neither creates a session for the empty identifier, nor
    disposes a session that carries it, nor closes the connection: in
    such a run a message with an absent or empty identifier reaches the
    root session. *)
Theorem C3_routing_by_session_id (object : ProtocolResponse) (w : World) :
  let key := or_empty (msg_sessionId object) in
  (msg_sessionId object = None \/ msg_sessionId object = Some EmptyString ->
     key = EmptyString)
  /\ (forall id, id <> EmptyString -> msg_sessionId object = Some id -> key = id)
  /\ (forall s, JsMap.get key (_sessions (connection w)) = Some s ->
        Connection_onMessage object w = CDPSession_onMessage s object w)
  /\ (JsMap.get key (_sessions (connection w)) = None ->
      Connection_onMessage object w
      = (Throw {| stack := at_Connection_onMessage;
                  message := "Unknown session id: "
                             +:+ template (msg_sessionId object) |}, w))
  /\ (forall ops,
        root_kept ops new_Connection = true ->
        msg_sessionId object = None \/ msg_sessionId object = Some EmptyString ->
        let w' := run ops new_Connection in
        browserSession w' = (Normal O, w')
        /\ session EmptyString w' = (Normal (Some O), w')
        /\ Connection_onMessage object w' = CDPSession_onMessage O object w').
Proof.
  intros key. rewrite Connection_onMessage_eq. fold key.
  assert (Hroot : msg_sessionId object = None
                  \/ msg_sessionId object = Some EmptyString -> key = EmptyString).
  { unfold key. by intros [->| ->]. }
  split; [done|]. split.
  { intros id _ Hid. unfold key. by rewrite Hid. }
  split.
  { by intros s ->. }
  split.
  { by intros ->. }
  intros ops Hkept Hempty w'.
  pose proof (root_kept_registered ops new_Connection Hkept) as Hget.
  fold w' in Hget. simpl in Hget. split; [|split].
  - unfold browserSession, bind, get_connection, ret. subst w'.
    by rewrite run_browserSession.
  - rewrite session_eq. by rewrite Hget.
  - rewrite Connection_onMessage_eq. fold key. by rewrite (Hroot Hempty), Hget.
Qed.


End connection.

(** * The claims at concrete inputs *)



(** With two sessions at work, an event without session identifier
    reaches the root session. *)
Lemma C3_witness :
  let w := run example_stringify example_unhandled_error two_sessions_run new_Connection in
  browserSession w = (Normal O, w)
  /\ session EmptyString w = (Normal (Some O), w)
  /\ Connection_onMessage example_stringify example_unhandled_error (event None None) w
     = CDPSession_onMessage example_stringify example_unhandled_error 0 (event None None) w.
Proof.
  exact (proj2 (proj2 (proj2 (proj2
           (C3_routing_by_session_id example_stringify example_unhandled_error
              (event None None) new_Connection))))
           two_sessions_run eq_refl (or_introl eq_refl)).
Defined.

(** After the root session is disposed, a message without session
    identifier is refused; after a session is then created for the
    empty identifier, such a message reaches that session, which is not
    the one [browserSession] answers. *)
Lemma C3_counterexample_root_disposed :
  let w := run example_stringify example_unhandled_error [call_session_dispose 0]
             new_Connection in
  let w2 := run example_stringify example_unhandled_error
              [call_session_dispose 0; call_createSession EmptyString]
              new_Connection in
  msg_sessionId (event None None) = None
  /\ browserSession w = (Normal O, w)
  /\ Connection_onMessage example_stringify example_unhandled_error (event None None) w
     = (Throw {| stack := at_Connection_onMessage;
                 message := "Unknown session id: undefined" |}, w)
  /\ browserSession w2 = (Normal O, w2)
  /\ session EmptyString w2 = (Normal (Some 1%nat), w2)
  /\ Connection_onMessage example_stringify example_unhandled_error
       (event None None) w2
     = CDPSession_onMessage example_stringify example_unhandled_error 1
         (event None None) w2
  /\ ~ (forall (ops : list Op) (object : ProtocolResponse),
          let w := run example_stringify example_unhandled_error ops
                     new_Connection in
          msg_sessionId object = None ->
          Connection_onMessage example_stringify example_unhandled_error object w
          = CDPSession_onMessage example_stringify example_unhandled_error
              (_browserSession (connection w)) object w).
Proof.
  cbv zeta. repeat apply conj; try (vm_compute; reflexivity).
  intros Hclaim.
  pose proof (Hclaim [call_session_dispose 0] (event None None) eq_refl)
    as Hrouted.
  vm_compute in Hrouted. discriminate Hrouted.
Qed.

(** Scenario E: the root session after the connection was disposed. *)
Lemma C5_witness :
  let w := run example_stringify example_unhandled_error [call_dispose] new_Connection in
  isClosed 0 w = (Normal true, w)
  /\ exists w',
       sendOrDie example_stringify 0 "Target.getTargets" None w
       = (Normal (promises w), w')
       /\ trace w'
          = trace w
            ++ [Reject (promises w)
                  {| stack := at_sendOrDie_closed;
                     message :=
                       "Protocol error (" +:+ "Target.getTargets" +:+
                       "): Session closed. Most likely the target has been closed." |}]
       /\ connection w' = connection w
       /\ heap w' = heap w
       /\ sent_ids (trace w') = sent_ids (trace w)
       /\ forall p, pending p w' = pending p w.
Proof.
  exact (C5_sendOrDie_on_closed_session example_stringify 0
           (closed_session (new_session EmptyString)) "Target.getTargets" None
           (run example_stringify example_unhandled_error [call_dispose] new_Connection)
           eq_refl eq_refl).
Defined.

(** Scenario B: session A1 closes with [Debugger.enable] outstanding. *)
Lemma C6_witness :
  let w := run example_stringify example_unhandled_error duplicate_run new_Connection in
  exists w' s',
    CDPSession_onClose example_unhandled_error 1 w = (Normal tt, w')
    /\ trace w'
       = trace w
         ++ [Reject 0 {| stack := at_sendOrDie_from 1;
                         message := "Protocol error (Debugger.enable): Target closed." |};
             Emit 1 ev_Disconnected []]
    /\ heap w' !! 1%nat = Some s'
    /\ _callbacks s' = []
    /\ _connection s' = None
    /\ isClosed 1 w' = (Normal true, w').
Proof.
  exact (C6_onClose_rejects_all_pending example_unhandled_error 1
           {| _connection := Some this_connection;
              _callbacks := [(1, {| cb_promise := 0;
                                    cb_from := new_Error (at_sendOrDie_from 1) EmptyString;
                                    cb_method := "Debugger.enable" |})];
              _sessionId := "A1" |}
           (run example_stringify example_unhandled_error duplicate_run new_Connection) eq_refl).
Defined.

Lemma C7_witness :
  exists p pr w',
    sendOrDie example_stringify 0 "Runtime.enable" None new_Connection = (Normal p, w')
    /\ send example_stringify 0 "Runtime.enable" None new_Connection = (Normal pr, w')
    /\ forall tr : list Effect,
         (forall e, promise_state tr pr <> Rejected e)
         /\ (forall e, promise_state tr (promise p) = Rejected e ->
              promise_state tr pr = Fulfilled VNull)
         /\ (forall v, promise_state tr (promise p) = Fulfilled v ->
              promise_state tr pr = Fulfilled v).
Proof.
  exact (C7_send_never_rejects example_stringify 0 (new_session EmptyString)
           "Runtime.enable" None new_Connection eq_refl).
Defined.

(** A reply numbered 7 when nothing was sent. *)
Lemma C8_witness :
  CDPSession_onMessage example_stringify example_unhandled_error 0 (reply_to 7 JNull) new_Connection
  = (Throw {| stack := at_CDPSession_onMessage; message := EmptyString |},
     new_Connection).
Proof.
  exact (proj1 (C8_unexpected_reply_throws example_stringify example_unhandled_error 0
                  (new_session EmptyString) (reply_to 7 JNull) new_Connection
                  eq_refl)
           7 eq_refl ltac:(lia) eq_refl).
Defined.

(** The message [{id: 0, method: "Debugger.paused", params: ...}] carries
    an identifier that no pending command has, and is emitted as an
    event instead of raising an error. *)
Lemma C8_counterexample_id_zero :
  msg_id (event (Some 0) None) = Some 0
  /\ CDPSession_onMessage example_stringify example_unhandled_error 0 (event (Some 0) None) new_Connection
     = (Normal tt,
        add_trace [Emit 0 (ev_method (Some "Debugger.paused"))
                     [VObject (JObject [("reason", JString "other")])]]
          new_Connection)
  /\ ~ (forall (this : SessionRef) (s : CDPSession) (id : Z)
               (object : ProtocolResponse) (w : World),
          heap w !! this = Some s ->
          msg_id object = Some id ->
          JsMap.get id (_callbacks s) = None ->
          exists e w', CDPSession_onMessage example_stringify example_unhandled_error this object w
                       = (Throw e, w')).
Proof.
  split; [reflexivity|]. split; [reflexivity|].
  intros Hclaim.
  destruct (Hclaim 0%nat (new_session EmptyString) 0 (event (Some 0) None)
              new_Connection eq_refl eq_refl eq_refl) as (e & w' & Heq).
  discriminate Heq.
Qed.

(** Scenario C. *)
Lemma C9_witness :
  exists w',
    CDPSession_onMessage example_stringify example_unhandled_error 0 (event None None)
      new_Connection
    = (Normal tt, w')
    /\ trace w'
       = trace new_Connection
         ++ [Emit 0 (ev_method (Some "Debugger.paused"))
               [VObject (JObject [("reason", JString "other")])]]
    /\ heap w' = heap new_Connection
    /\ (forall p, pending p w' = pending p new_Connection).
Proof.
  destruct (C9_event_is_emitted example_stringify example_unhandled_error 0
              (new_session EmptyString) (event None None) new_Connection
              eq_refl eq_refl)
    as (r & w' & Heq & Hheap & _ & _ & Hpending & _ & Hemit & _).
  assert (Hne : msg_method (event None None) <> Some "error"%string)
    by (vm_compute; discriminate).
  destruct (Hemit (or_introl Hne)) as [-> Htrace].
  exists w'. split; [exact Heq|]. split; [exact Htrace|].
  split; [exact Hheap | exact Hpending].
Defined.

(** The message [{method: "error", params: {reason: "other"}}] carries
    no identifier; on a session without listener for [error] the
    emitter throws, nothing is emitted and nothing else changes. *)
Lemma C9_counterexample_error_event :
  msg_id error_event = None
  /\ heap new_Connection !! 0%nat = Some (new_session EmptyString)
  /\ CDPSession_onMessage example_stringify example_unhandled_error 0
       error_event new_Connection
     = (Throw {| stack := at_EventEmitter_emit;
                 message := example_unhandled_error
                              (VObject (JObject [("reason", JString "other")])) |},
        new_Connection)
  /\ ~ (forall (this : SessionRef) (s : CDPSession)
               (object : ProtocolResponse) (w : World),
          heap w !! this = Some s ->
          msg_id object = None ->
          exists r w',
            CDPSession_onMessage example_stringify example_unhandled_error
              this object w
            = (r, w')
            /\ trace w'
               = trace w ++ [Emit this (ev_method (msg_method object))
                               [value_of (msg_params object)]]).
Proof.
  split; [reflexivity|]. split; [reflexivity|]. split; [reflexivity|].
  intros Hclaim.
  destruct (Hclaim 0%nat (new_session EmptyString) error_event new_Connection
              eq_refl eq_refl) as (r & w' & Heq & Htrace).
  injection Heq as _ <-. discriminate Htrace.
Qed.

(** Session A1 created a second time while [Debugger.enable] is
    outstanding on the first. *)
Lemma C10_witness :
  let w := run example_stringify example_unhandled_error duplicate_run new_Connection in
  exists new w',
    createSession "A1" w = (Normal new, w')
    /\ new <> 1%nat
    /\ session "A1" w' = (Normal (Some new), w')
    /\ heap w' !! 1%nat
       = Some {| _connection := Some this_connection;
                 _callbacks := [(1, {| cb_promise := 0;
                                       cb_from := new_Error (at_sendOrDie_from 1) EmptyString;
                                       cb_method := "Debugger.enable" |})];
                 _sessionId := "A1" |}
    /\ isClosed 1 w' = (Normal false, w')
    /\ trace w' = trace w
    /\ (forall p, pending p w' = pending p w).
Proof.
  exact (C10_duplicate_id_replaces_session "A1" 1 _
           (run example_stringify example_unhandled_error duplicate_run new_Connection)
           eq_refl eq_refl eq_refl).
Defined.

(** * The further properties at concrete inputs *)

Lemma X2_witness :
  let w := run example_stringify example_unhandled_error two_sessions_run new_Connection in
  exists w',
    Connection_onTransportClose example_unhandled_error w = (Normal tt, w')
    /\ _transport (connection w') = {| onmessage := false; onclose := false |}
    /\ _lastId (connection w') = _lastId (connection w)
    /\ (forall id, session id w' = (Normal None, w'))
    /\ (forall id ref, session id w = (Normal (Some ref), w) ->
          isClosed ref w' = (Normal true, w'))
    /\ (forall object,
          Connection_onMessage example_stringify example_unhandled_error object w'
          = (Throw {| stack := at_Connection_onMessage;
                      message := "Unknown session id: "
                                 +:+ template (msg_sessionId object) |}, w')).
Proof.
  exact (X2_first_close_empties_registry example_stringify example_unhandled_error two_sessions_run
           eq_refl).
Defined.

(** The first object of A1, replaced in the registry, keeps
    [Debugger.enable] pending through the close of the connection. *)
Lemma X3_witness :
  let w := run example_stringify example_unhandled_error replaced_run new_Connection in
  let w' := snd (Connection_onTransportClose example_unhandled_error w) in
  heap w' !! 1%nat = heap w !! 1%nat
  /\ forall s p, heap w !! 1%nat = Some s -> (0 < awaiting p s)%nat ->
       settle_calls p (trace w') = 0%nat.
Proof.
  refine (X3_close_skips_unregistered example_stringify example_unhandled_error replaced_run 1
            eq_refl _).
  vm_compute. intros Hin.
  repeat (apply elem_of_cons in Hin as [Hin|Hin]; [discriminate Hin|]).
  by apply elem_of_nil in Hin.
Defined.

Lemma X4_witness :
  let w := run example_stringify example_unhandled_error two_sessions_run new_Connection in
  sessionId 1 w = (Normal "A1", w)
  /\ isClosed 1 w = (Normal false, w)
  /\ forall object, or_empty (msg_sessionId object) = "A1" ->
       Connection_onMessage example_stringify example_unhandled_error object w
       = CDPSession_onMessage example_stringify example_unhandled_error 1 object w.
Proof.
  exact (X4_session_lookup_is_sound example_stringify example_unhandled_error two_sessions_run "A1" 1
           eq_refl).
Defined.

Lemma X5_witness :
  let w := run example_stringify example_unhandled_error duplicate_run new_Connection in
  exists w1,
    CDPSession_dispose example_unhandled_error 1 w = (Normal tt, w1)
    /\ trace w1
       = trace w
         ++ [Reject 0 {| stack := at_sendOrDie_from 1;
                         message := "Protocol error (Debugger.enable): Target closed." |}]
         ++ [Emit 1 ev_Disconnected []]
    /\ session "A1" w1 = (Normal None, w1)
    /\ isClosed 1 w1 = (Normal true, w1)
    /\ CDPSession_dispose example_unhandled_error 1 w1 = (Normal tt, w1)
    /\ detach example_stringify 1 w1
       = (Throw {| stack := at_detach;
                   message := "Session already detached. Most likely the target has been closed." |},
          w1)
    /\ fst (sendOrDie example_stringify 1 "Runtime.enable" None w1)
       = Normal (promises w1)
    /\ trace (snd (sendOrDie example_stringify 1 "Runtime.enable" None w1))
       = trace w1
         ++ [Reject (promises w1)
               {| stack := at_sendOrDie_closed;
                  message := "Protocol error (Runtime.enable): Session closed. Most likely the target has been closed." |}].
Proof.
  exact (X5_session_dispose example_stringify example_unhandled_error 1
           {| _connection := Some this_connection;
              _callbacks := [(1, {| cb_promise := 0;
                                    cb_from := new_Error (at_sendOrDie_from 1) EmptyString;
                                    cb_method := "Debugger.enable" |})];
              _sessionId := "A1" |}
           "Runtime.enable" None
           (run example_stringify example_unhandled_error duplicate_run new_Connection)
           eq_refl eq_refl).
Defined.

(** After the root session is disposed, an event without session
    identifier is refused. *)
Lemma X6_witness :
  let w1 := snd (CDPSession_dispose example_unhandled_error 0 new_Connection) in
  Connection_onMessage example_stringify example_unhandled_error (event None None) w1
  = (Throw {| stack := at_Connection_onMessage;
              message := "Unknown session id: undefined" |}, w1).
Proof.
  exact (X6_message_after_dispose example_stringify example_unhandled_error 0 (new_session EmptyString)
           (event None None) new_Connection eq_refl eq_refl eq_refl).
Defined.

Lemma X7_witness :
  let w := run example_stringify example_unhandled_error replaced_run new_Connection in
  let w1 := snd (CDPSession_dispose example_unhandled_error 1 w) in
  session "A1" w1 = (Normal None, w1)
  /\ heap w1 !! 2%nat = Some (new_session "A1")
  /\ fst (isClosed 2 w1) = fst (isClosed 2 w).
Proof.
  exact (X7_dispose_of_replaced_session example_unhandled_error 1 2
           {| _connection := Some this_connection;
              _callbacks := [(1, {| cb_promise := 0;
                                    cb_from := new_Error (at_sendOrDie_from 1) EmptyString;
                                    cb_method := "Debugger.enable" |})];
              _sessionId := "A1" |}
           (new_session "A1")
           (run example_stringify example_unhandled_error replaced_run new_Connection)
           eq_refl eq_refl eq_refl ltac:(lia) eq_refl).
Defined.

Lemma X8_witness :
  let w := run example_stringify example_unhandled_error duplicate_run new_Connection in
  let message :=
    {| cmd_id := 2; cmd_method := "Target.detachFromTarget";
       cmd_params := JObject []; cmd_sessionId := Some "A1" |} in
  exists w1,
    detach example_stringify 1 w = (Normal tt, w1)
    /\ trace w1
       = trace w ++ [TransportSend message
                       (example_stringify (command_to_json message))]
    /\ heap w1 = heap w
    /\ CDPSession_onMessage example_stringify example_unhandled_error 1 (reply_to 2 JNull) w1
       = (Throw {| stack := at_CDPSession_onMessage; message := EmptyString |},
          w1).
Proof.
  destruct (X8_detach_records_nothing example_stringify example_unhandled_error duplicate_run 1
              {| _connection := Some this_connection;
                 _callbacks := [(1, {| cb_promise := 0;
                                       cb_from := new_Error (at_sendOrDie_from 1) EmptyString;
                                       cb_method := "Debugger.enable" |})];
                 _sessionId := "A1" |}
              (reply_to 2 JNull) eq_refl eq_refl)
    as (w1 & Hdetach & Htrace & Hheap & _ & _ & Hthrow).
  exists w1. split; [exact Hdetach|]. split; [exact Htrace|].
  split; [exact Hheap|]. exact (Hthrow eq_refl).
Defined.


Lemma X10_witness :
  let w := run example_stringify example_unhandled_error duplicate_run new_Connection in
  heap (snd (sendOrDie example_stringify 0 "Runtime.enable" None w)) !! 1%nat
  = heap w !! 1%nat.
Proof.
  exact (proj1 (X10_sessions_are_isolated example_stringify example_unhandled_error 0 1
                  "Runtime.enable" None (event None None)
                  (run example_stringify example_unhandled_error duplicate_run new_Connection)
                  ltac:(lia))).
Defined.

(** The root session, closed with the connection, stays closed when a
    session is created and a message arrives. *)
Lemma X11_witness :
  let w := run example_stringify example_unhandled_error [call_dispose] new_Connection in
  let w' := run example_stringify example_unhandled_error
              [call_createSession "A1"; transport_message (event None None)] w in
  exists s',
    heap w' !! 0%nat = Some s'
    /\ _sessionId s' = EmptyString
    /\ _connection s' = None
    /\ _callbacks s' = [].
Proof.
  destruct (X11_closed_for_good example_stringify example_unhandled_error [call_dispose]
              [call_createSession "A1"; transport_message (event None None)]
              0 (closed_session (new_session EmptyString)) eq_refl)
    as (s' & Hs' & Hid & Hclosed).
  exists s'. split; [exact Hs'|]. split; [exact Hid|].
  exact (proj2 (Hclosed eq_refl)).
Defined.

(** The reply to [Debugger.enable], sent by A1, delivered to the root
    session. *)
Lemma X13_witness :
  let w := run example_stringify example_unhandled_error duplicate_run new_Connection in
  0 < 1 <= _lastId (connection w)
  /\ CDPSession_onMessage example_stringify example_unhandled_error 0 (reply_to 1 JNull) w
     = (Throw {| stack := at_CDPSession_onMessage; message := EmptyString |}, w).
Proof.
  refine (X13_reply_to_another_session example_stringify example_unhandled_error duplicate_run 1 0
            {| _connection := Some this_connection;
               _callbacks := [(1, {| cb_promise := 0;
                                     cb_from := new_Error (at_sendOrDie_from 1) EmptyString;
                                     cb_method := "Debugger.enable" |})];
               _sessionId := "A1" |}
            (new_session EmptyString) 1 (reply_to 1 JNull)
            eq_refl eq_refl ltac:(lia) _ eq_refl).
  simpl. left.
Defined.

Lemma X14_witness :
  let w := run example_stringify example_unhandled_error [call_dispose] new_Connection in
  exists pr w1,
    send example_stringify 0 "Runtime.enable" None w = (Normal pr, w1)
    /\ promise_state (trace w1) pr = Fulfilled VNull
    /\ heap w1 = heap w
    /\ connection w1 = connection w
    /\ sent_ids (trace w1) = sent_ids (trace w).
Proof.
  exact (X14_send_on_closed_session example_stringify example_unhandled_error [call_dispose] 0
           (closed_session (new_session EmptyString)) "Runtime.enable" None
           eq_refl eq_refl).
Defined.

Lemma X15_witness :
  let w := run example_stringify example_unhandled_error duplicate_run new_Connection in
  let w1 := snd (CDPSession_dispose example_unhandled_error 1 w) in
  promise_state (trace w) (promise 0) = Pending
  /\ promise_state (trace w1) (promise 0)
     = Rejected {| stack := at_sendOrDie_from 1;
                   message := "Protocol error (Debugger.enable): Target closed." |}.
Proof.
  exact (X15_dispose_rejects_pending example_stringify example_unhandled_error duplicate_run 1
           {| _connection := Some this_connection;
              _callbacks := [(1, {| cb_promise := 0;
                                    cb_from := new_Error (at_sendOrDie_from 1) EmptyString;
                                    cb_method := "Debugger.enable" |})];
              _sessionId := "A1" |}
           1 {| cb_promise := 0;
                cb_from := new_Error (at_sendOrDie_from 1) EmptyString;
                cb_method := "Debugger.enable" |}
           eq_refl eq_refl eq_refl).
Defined.

(** Scenario B. *)
Lemma X16_witness :
  let w := run example_stringify example_unhandled_error duplicate_run new_Connection in
  let w1 := snd (Connection_dispose example_unhandled_error w) in
  promise_state (trace w) (promise 0) = Pending
  /\ promise_state (trace w1) (promise 0)
     = Rejected {| stack := at_sendOrDie_from 1;
                   message := "Protocol error (Debugger.enable): Target closed." |}.
Proof.
  exact (X16_connection_dispose_rejects_pending example_stringify example_unhandled_error duplicate_run 1
           {| _connection := Some this_connection;
              _callbacks := [(1, {| cb_promise := 0;
                                    cb_from := new_Error (at_sendOrDie_from 1) EmptyString;
                                    cb_method := "Debugger.enable" |})];
              _sessionId := "A1" |}
           1 {| cb_promise := 0;
                cb_from := new_Error (at_sendOrDie_from 1) EmptyString;
                cb_method := "Debugger.enable" |}
           eq_refl eq_refl eq_refl eq_refl).
Defined.

Lemma X17_witness :
  exists new w1,
    createSession "A1" new_Connection = (Normal new, w1)
    /\ fst (session "A1" w1) = Normal (Some new)
    /\ fst (session EmptyString w1) = fst (session EmptyString new_Connection)
    /\ sessionId new w1 = (Normal "A1", w1)
    /\ isClosed new w1 = (Normal false, w1)
    /\ heap w1 !! new
       = Some {| _connection := Some this_connection; _callbacks := [];
                 _sessionId := "A1" |}
    /\ (forall ref s, heap new_Connection !! ref = Some s -> heap w1 !! ref = Some s)
    /\ trace w1 = trace new_Connection
    /\ _lastId (connection w1) = _lastId (connection new_Connection).
Proof.
  exact (X17_createSession_registers_one "A1" EmptyString new_Connection
           ltac:(discriminate)).
Defined.

Lemma X19_witness :
  let w := run example_stringify example_unhandled_error [call_dispose] new_Connection in
  let w1 := snd (createSession "A1" w) in
  let w2 := snd (sendOrDie example_stringify 1 "Debugger.enable" None w1) in
  let w3 := snd (Connection_dispose example_unhandled_error w2) in
  fst (createSession "A1" w) = Normal 1%nat
  /\ session "A1" w1 = (Normal (Some 1%nat), w1)
  /\ isClosed 1 w1 = (Normal false, w1)
  /\ fst (sendOrDie example_stringify 1 "Debugger.enable" None w1) = Normal O
  /\ sent_ids (trace w2) = sent_ids (trace w) ++ [_lastId (connection w) + 1]
  /\ _closed (connection w3) = true
  /\ session "A1" w3 = (Normal (Some 1%nat), w3)
  /\ isClosed 1 w3 = (Normal false, w3)
  /\ promise_state (trace w3) (promise 0) = Pending
  /\ exists s, heap w3 !! 1%nat = Some s
               /\ _connection s = Some this_connection
               /\ JsMap.has (_lastId (connection w) + 1) (_callbacks s) = true.
Proof.
  exact (X19_session_created_after_close example_stringify example_unhandled_error [call_dispose]
           "A1" "Debugger.enable" None eq_refl).
Defined.
